(** * The Crud data-access class of the module template

    A shallow embedding of [class Crud] (tools/templates/module/client-react/
    index.tsx, second document of the file) together with the properties the
    specification states about it.

    The class talks to three things it does not own: the caller's argument
    objects (plain JavaScript objects, mutated in place by [create] and
    [update]), the knex query builder with the database behind it, and a few
    helper libraries (humps, graphql-parse-fields, ./helpers).  The argument
    objects live in a heap of cells addressed by location, so that aliasing
    and in-place mutation are visible; the database and the libraries are the
    fields of an environment record [Env]; every method is a function in a
    state-and-exception monad over the heap, the store and the list of
    statements issued so far. *)

From Stdlib Require Import Ascii.
From stdpp Require Import gmap strings list.

#[local] Set Warnings "-clear-no-such-hyp".

Local Open Scope string_scope.
Local Open Scope list_scope.

(** ** JavaScript values and objects *)

Definition loc := positive.

(** Numbers are integers here: ids, counts, limits and ranks. *)
Inductive value :=
| VUndefined
| VNull
| VBool (b : bool)
| VNum (n : Z)
| VStr (s : string)
| VRef (l : loc).
Arguments VRef l%_positive.

#[global] Instance value_eq_dec : EqDecision value.
Proof. solve_decision. Defined.

(** [if (v)], [a && b]: the falsy values are undefined, null, false, 0
    and the empty string. *)
Definition truthy (v : value) : bool :=
  match v with
  | VUndefined | VNull => false
  | VBool b => b
  | VNum n => negb (n =? 0)%Z
  | VStr s => negb (String.eqb s "")
  | VRef _ => true
  end.

(** [a === b]: without NaN and signed zeros, strict equality of two values
    of this type is their equality (references are equal when they are the
    same location). *)
Definition strict_eq (a b : value) : bool := bool_decide (a = b).

(** The own properties of an object, in insertion order. *)
Abbreviation props := (list (string * value)).

Fixpoint prop_lookup (k : string) (o : props) : option value :=
  match o with
  | [] => None
  | (k', v) :: o' => if String.eqb k k' then Some v else prop_lookup k o'
  end.

(** [o[k]] *)
Definition prop_get (k : string) (o : props) : value :=
  default VUndefined (prop_lookup k o).

(** [o[k] = v]: an existing property keeps its place, a new one goes last. *)
Fixpoint prop_set (k : string) (v : value) (o : props) : props :=
  match o with
  | [] => [(k, v)]
  | (k', v') :: o' =>
      if String.eqb k k' then (k, v) :: o' else (k', v') :: prop_set k v o'
  end.

(** [delete o[k]] *)
Fixpoint prop_delete (k : string) (o : props) : props :=
  match o with
  | [] => []
  | (k', v') :: o' =>
      if String.eqb k k' then prop_delete k o' else (k', v') :: prop_delete k o'
  end.

(** [has(o, k)] of lodash: an own property named [k] exists. *)
Definition prop_has (k : string) (o : props) : bool :=
  bool_decide (is_Some (prop_lookup k o)).

(** A heap cell is a plain object or an array.  An array has its elements
    and, as every JavaScript object, may carry named properties of its own.
    Only own named properties are read by name: the keys Crud uses are
    schema field names, [create], [update], [delete], [id], [id_in] and the
    foreign-key name. *)
Inductive cell :=
| CObj (o : props)
| CArr (elems : list value) (o : props).

Definition cell_props (c : cell) : props :=
  match c with CObj o => o | CArr _ o => o end.

Definition cell_with_props (c : cell) (o : props) : cell :=
  match c with CObj _ => CObj o | CArr es _ => CArr es o end.

Abbreviation heap := (gmap loc cell).

(** What a library that copies its argument on the spot (decamelizeKeys,
    knex bindings) sees of a value: the value itself when primitive, the
    properties of the object or the elements of the array it refers to. *)
Inductive snap :=
| SPrim (v : value)
| SObj (o : props)
| SArr (elems : list value).

Definition snapshot (h : heap) (v : value) : snap :=
  match v with
  | VRef l =>
      match h !! l with
      | Some (CObj o) => SObj o
      | Some (CArr es _) => SArr es
      | None => SPrim VUndefined
      end
  | _ => SPrim v
  end.

(** ** Schemas

    A schema has a name and field descriptors by key; a descriptor has a
    type and the [sortBy] and [searchText] flags.  A type is a scalar, a
    schema ([type.isSchema]) or an array literal such as [[Comment]]
    ([type.constructor === Array]).  [schema.keys()] enumerates the keys of
    [schema.values], so a loop
    [for (const key of schema.keys()) { const value = schema.values[key]; .. }]
    is a loop over the (key, descriptor) pairs of [s_fields]. *)
Inductive FieldType :=
| TScalar (n : string)
| TSchema (s : Schema)
| TArray (elem : FieldType)
with Schema :=
| MkSchema (s_name : string) (s_fields : list (string * FieldDesc))
with FieldDesc :=
| MkField (f_type : FieldType) (f_sortBy : bool) (f_searchText : bool).

Definition s_name (s : Schema) : string :=
  match s with MkSchema n _ => n end.
Definition s_fields (s : Schema) : list (string * FieldDesc) :=
  match s with MkSchema _ fs => fs end.
Definition f_type (d : FieldDesc) : FieldType :=
  match d with MkField t _ _ => t end.
Definition f_sortBy (d : FieldDesc) : bool :=
  match d with MkField _ b _ => b end.
Definition f_searchText (d : FieldDesc) : bool :=
  match d with MkField _ _ b => b end.

(** [value.type.constructor === Array] *)
Definition is_array_type (t : FieldType) : bool :=
  match t with TArray _ => true | _ => false end.

(** [value.type.isSchema] *)
Definition is_schema_type (t : FieldType) : option Schema :=
  match t with TSchema s => Some s | _ => None end.

(** A Crud instance: [this.prefix], [this.tableName], [this.schema]. *)
Record Crud := {
  prefix : string;
  tableName : string;
  schema : Schema
}.

Definition getPrefix (c : Crud) : string := prefix c.
Definition getTableName (c : Crud) : string := tableName c.
Definition getSchema (c : Crud) : Schema := schema c.

(** ** Queries and statements *)

Inductive where_clause :=
| WhereCmp (column op : string) (v : value)       (* .where(col, op, v) *)
| WhereIn (column : string) (vs : list value)     (* .whereIn(col, ids) *)
| WhereLikeAny (cols : list string) (pattern : string).
                                    (* .where(function () { this.orWhere(..) }) *)

(** A select query under construction: [knex(`${table} as ${alias}`)] and
    the clauses chained on it. *)
Record Query := {
  q_table : string;
  q_alias : string;
  q_columns : list string;
  q_joins : list string;
  q_limit : option value;
  q_offset : option value;
  q_order : list (string * option string);
  q_where : list where_clause
}.

Definition knex_as (table alias : string) : Query :=
  {| q_table := table; q_alias := alias; q_columns := []; q_joins := [];
     q_limit := None; q_offset := None; q_order := []; q_where := [] |}.

Definition set_limit (v : value) (q : Query) : Query :=
  {| q_table := q_table q; q_alias := q_alias q; q_columns := q_columns q;
     q_joins := q_joins q; q_limit := Some v; q_offset := q_offset q;
     q_order := q_order q; q_where := q_where q |}.

Definition set_offset (v : value) (q : Query) : Query :=
  {| q_table := q_table q; q_alias := q_alias q; q_columns := q_columns q;
     q_joins := q_joins q; q_limit := q_limit q; q_offset := Some v;
     q_order := q_order q; q_where := q_where q |}.

Definition add_order (column : string) (order : option string) (q : Query) : Query :=
  {| q_table := q_table q; q_alias := q_alias q; q_columns := q_columns q;
     q_joins := q_joins q; q_limit := q_limit q; q_offset := q_offset q;
     q_order := q_order q ++ [(column, order)]; q_where := q_where q |}.

Definition add_where (w : where_clause) (q : Query) : Query :=
  {| q_table := q_table q; q_alias := q_alias q; q_columns := q_columns q;
     q_joins := q_joins q; q_limit := q_limit q; q_offset := q_offset q;
     q_order := q_order q; q_where := q_where q ++ [w] |}.

(** The statements Crud sends to the database.  Objects handed to knex are
    recorded as they are at the moment of the call. *)
Inductive stmt :=
| Insert (table : string) (data : snap)
      (* knex(table).insert(decamelizeKeys(data)).returning('id') *)
| Update (table : string) (data : snap) (where_ : snap)
      (* knex(table).update(decamelizeKeys(data)).where(where) *)
| Delete (table : string) (where_ : snap)
      (* knex(table).where(where).del() *)
| DeleteIn (table : string) (ids : snap)
      (* knex(table).whereIn('id', id_in).del() *)
| RankSwap (table : string) (bindings : snap)
      (* knex.raw(`UPDATE t t1 JOIN t t2 ON t1.id = ? AND t2.id = ?
                   SET t1.rank = ?, t2.rank = ?`, data) *)
| SelectNest (q : Query)
      (* knexnest(query) *)
| CountDistinct (table : string).
      (* knex(table).countDistinct('id as count').first() *)

(** A statement is awaited by the method that issues it, or issued from an
    async callback nobody awaits. *)
Inductive mode := Awaited | Detached.

(** What can be thrown inside a method. *)
Inductive exn :=
| TypeError                                  (* raised by the runtime *)
| FieldErrors (errors : list (string * string))  (* thrown by throwIf *)
| DbError (message : string).                (* a statement was rejected *)

Inductive result (A : Type) :=
| Ok (a : A)
| Throw (e : exn).
Arguments Ok {A} a.
Arguments Throw {A} e.

(** ** FieldError *)

(** Modelled from the spec: the class FieldError of common/FieldError, which
    Crud imports and which is not among the sources.  The specification
    describes it as "a single generic field error bag accumulated per call"
    that a mutation returns "as { errors }", "an accumulated field-error
    list": [new FieldError()] is the empty bag, [setError] records a message
    under a field, and [throwIf] throws the accumulated list when there is
    one and does nothing otherwise. *)
Module FieldError.

Definition t := list (string * string).

Definition new : t := [].

Definition setError (field message : string) (e : t) : t :=
  e ++ [(field, message)].

Definition hasAny (e : t) : bool :=
  match e with [] => false | _ :: _ => true end.

Definition throwIf (e : t) : result unit :=
  if hasAny e then Throw (FieldErrors e) else Ok tt.

End FieldError.

(** ** The environment of a Crud instance

    The libraries Crud imports and the database behind the knex connector.
    A statement takes the store to a new store and is either rejected with a
    message or fulfilled with the value the driver documents for it. *)
Record Env := {
  (* humps *)
  camelize : string → string;
  pascalize : string → string;
  decamelize : string → string;
  (* graphql-parse-fields: the resolver's info object and the parsed
     selection, with reading a sub-selection ([fields.edges], [fields.node])
     and [fields[k] = true] *)
  ResolveInfo : Type;
  Fields : Type;
  parseFields : ResolveInfo → Fields;
  fields_get : string → Fields → Fields;
  fields_add : string → Fields → Fields;
  (* ./helpers: selectBy(schema, fields, single, prefix) is a function on a
     query builder *)
  selectBy : Schema → Fields → bool → string → Query → Query;
  (* the database *)
  db : Type;
  (* the objects knexnest assembles, and reading a property of one *)
  row : Type;
  row_get : row → string → value;
  (* insert .. returning: the array of new ids *)
  run_insert : string → snap → db → (string + list value) * db;
  (* update, del: the number of rows affected *)
  run_update : string → snap → snap → db → (string + Z) * db;
  run_delete : string → snap → db → (string + Z) * db;
  run_delete_in : string → snap → db → (string + Z) * db;
  (* raw: an array whose elements carry affectedRows *)
  run_rank_swap : string → snap → db → (string + list Z) * db;
  (* knexnest on a query for a single object: null or the object *)
  run_select_one : Query → db → (string + option row) * db;
  (* knexnest on a query for a list: null or the array of objects *)
  run_select_list : Query → db → (string + option (list row)) * db;
  (* countDistinct('id as count').first(): the count *)
  run_count : string → db → (string + Z) * db
}.

(** What a public mutation returns. *)
Inductive payload (R : Type) :=
| PNode (node : option R)     (* { node } *)
| PCount (count : Z)           (* { count } *)
| PErrors (e : exn)            (* { errors: e } *)
| PUndefined.                  (* the body ends without a return *)
Arguments PNode {R} node.
Arguments PCount {R} count.
Arguments PErrors {R} e.
Arguments PUndefined {R}.

(** The arguments of a resolver: [{ data, where }]; a property the caller
    left out is undefined. *)
Record Args := {
  data : value;
  where_ : value
}.

Record OrderBy := {
  column : option string;
  order : option string
}.

Record Filter := {
  searchText : option string
}.

Record ListArgs := {
  limit : value;
  offset : value;
  orderBy : option OrderBy;
  filter : option Filter
}.

(** [{ edges, pageInfo: { totalCount, hasNextPage } }] *)
Record Page (R : Type) := {
  edges : option (list R);
  totalCount : Z;
  hasNextPage : value
}.
Arguments edges {R} _.
Arguments totalCount {R} _.
Arguments hasNextPage {R} _.

(** ** The monad of a method body *)

Section Methods.

Context (E : Env).

(** The caller's heap, the database, and the statements handed to knex so
    far, oldest first. *)
Record World := {
  w_heap : heap;
  w_store : db E;
  w_issued : list (stmt * mode)
}.

Definition M (A : Type) : Type := World → result A * World.

Definition ret {A} (a : A) : M A := λ w, (Ok a, w).

Definition bind {A B} (m : M A) (k : A → M B) : M B :=
  λ w, match m w with
       | (Ok a, w') => k a w'
       | (Throw e, w') => (Throw e, w')
       end.

Definition throw {A} (e : exn) : M A := λ w, (Throw e, w).

Definition lift {A} (r : result A) : M A := λ w, (r, w).

(** [try { body } catch (e) { handler }] *)
Definition try_catch {A} (body : M A) (handler : exn → M A) : M A :=
  λ w, match body w with
       | (Ok a, w') => (Ok a, w')
       | (Throw e, w') => handler e w'
       end.

(** An async callback that nobody awaits, as in
    [list.map(async x => { .. })]: it runs up to its first await while
    [map] calls it; a rejection of its promise reaches nobody. *)
Definition detach {A} (m : M A) : M unit :=
  λ w, match m w with (_, w') => (Ok tt, w') end.

End Methods.

Arguments ret {E A} a.
Arguments bind {E A B} m k.
Arguments throw {E A} e.
Arguments lift {E A} r.
Arguments try_catch {E A} body handler.
Arguments detach {E A} m.
Arguments w_heap {E} _.
Arguments w_store {E} _.
Arguments w_issued {E} _.

Declare Scope js_scope.
Delimit Scope js_scope with js.
Notation "x <- m ;; k" := (bind m (λ x, k))
  (at level 100, m at next level, right associativity) : js_scope.
Notation "m ;; k" := (bind m (λ _, k))
  (at level 100, right associativity) : js_scope.
Local Open Scope js_scope.

Section Runtime.

Context {E : Env}.

Definition get_heap : M E heap := λ w, (Ok (w_heap w), w).

Definition put_cell (l : loc) (c : cell) : M E unit :=
  λ w, (Ok tt, {| w_heap := <[l := c]> (w_heap w);
                  w_store := w_store w; w_issued := w_issued w |}).

(** [v[k]]: a TypeError on undefined and null, undefined on the other
    primitives, the own property on an object. *)
Definition get_prop (v : value) (k : string) : M E value :=
  match v with
  | VUndefined | VNull => throw TypeError
  | VRef l =>
      h <- get_heap ;;
      match h !! l with
      | Some c => ret (prop_get k (cell_props c))
      | None => throw TypeError
      end
  | _ => ret VUndefined
  end.

(** [v[k] = x] in strict code (a module): a TypeError unless [v] is an
    object. *)
Definition set_prop (v : value) (k : string) (x : value) : M E unit :=
  match v with
  | VRef l =>
      h <- get_heap ;;
      match h !! l with
      | Some c => put_cell l (cell_with_props c (prop_set k x (cell_props c)))
      | None => throw TypeError
      end
  | _ => throw TypeError
  end.

(** [delete v[k]] *)
Definition delete_prop (v : value) (k : string) : M E unit :=
  match v with
  | VUndefined | VNull => throw TypeError
  | VRef l =>
      h <- get_heap ;;
      match h !! l with
      | Some c => put_cell l (cell_with_props c (prop_delete k (cell_props c)))
      | None => throw TypeError
      end
  | _ => ret tt
  end.

(** The receiver of [v.map(f)]: the elements when [v] is an array, a
    TypeError otherwise (undefined and null have no properties, and no
    other value of this model has a [map] method). *)
Definition array_elems (v : value) : M E (list value) :=
  match v with
  | VRef l =>
      h <- get_heap ;;
      match h !! l with
      | Some (CArr es _) => ret es
      | _ => throw TypeError
      end
  | _ => throw TypeError
  end.

(** [l.map(f)] for its effects. *)
Fixpoint for_each {A} (f : A → M E unit) (l : list A) : M E unit :=
  match l with
  | [] => ret tt
  | x :: l' => f x ;; for_each f l'
  end.

(** A knex query builder or the promise knexnest makes of one: the
    statement, and what the database does with it. *)
Record Builder (A : Type) := {
  b_stmt : stmt;
  b_run : db E → (string + A) * db E
}.
Arguments b_stmt {A} _.
Arguments b_run {A} _.

Definition log (s : stmt) (m : mode) : M E unit :=
  λ w, (Ok tt, {| w_heap := w_heap w; w_store := w_store w;
                  w_issued := w_issued w ++ [(s, m)] |}).

(** [await builder]: the statement runs against the store; a rejection is
    thrown at the await. *)
Definition await {A} (b : Builder A) : M E A :=
  log (b_stmt b) Awaited ;;
  λ w, match b_run b (w_store w) with
       | (inr a, d) =>
           (Ok a, {| w_heap := w_heap w; w_store := d; w_issued := w_issued w |})
       | (inl msg, d) =>
           (Throw (DbError msg),
            {| w_heap := w_heap w; w_store := d; w_issued := w_issued w |})
       end.

(** [await builder] as the last thing a detached callback does.  The
    statement is handed to knex; when the database executes it relative to
    the statements the method goes on to issue is not decided by the
    method, and its outcome reaches nobody, so its transition of the store
    is not part of the call. *)
Definition hand_over {A} (b : Builder A) : M E unit :=
  log (b_stmt b) Detached.

End Runtime.

Arguments Builder : clear implicits.
Arguments b_stmt {E A} _.
Arguments b_run {E A} _.

(** ** The methods of Crud *)

Section CrudMethods.

Context {E : Env}.

Abbreviation Ctx := (gmap string Crud).

(** The table a statement addresses: [`${this.prefix}${this.tableName}`]. *)
Definition table_of (c : Crud) : string := prefix c +:+ tableName c.

(** [orderBy && orderBy.column] as a condition; when it holds, the
    column. *)
Definition order_column (o : option OrderBy) : option string :=
  match o with
  | Some ob =>
      match column ob with
      | Some col => if String.eqb col "" then None else Some col
      | None => None
      end
  | None => None
  end.

(** [let order = 'asc'; if (orderBy.order) { order = orderBy.order; }] *)
Definition order_direction (o : option OrderBy) : string :=
  match o with
  | Some ob =>
      match order ob with
      | Some d => if String.eqb d "" then "asc" else d
      | None => "asc"
      end
  | None => "asc"
  end.

(** The inner loop of [_getList]: the last key of the remote schema with
    a [sortBy] flag, ['name'] when there is none. *)
Fixpoint remote_sort_key (fields : list (string * FieldDesc)) (sortBy : string)
  : string :=
  match fields with
  | [] => sortBy
  | (remoteKey, remoteValue) :: rest =>
      remote_sort_key rest (if f_sortBy remoteValue then remoteKey else sortBy)
  end.

(** The outer loop of [_getList] over the schema's keys; [column] is
    reassigned in the loop and compared again at the next key. *)
Fixpoint resolve_column (tableName : string) (fields : list (string * FieldDesc))
    (column : string) : string :=
  match fields with
  | [] => column
  | (key, value) :: rest =>
      resolve_column tableName rest
        (if String.eqb column key then
           match is_schema_type (f_type value) with
           | Some remote =>
               decamelize E (s_name remote) +:+ "." +:+
               remote_sort_key (s_fields remote) "name"
           | None => tableName +:+ "." +:+ decamelize E column
           end
         else column)
  end.

(** The columns of the free-text search: [`${tableName}.${key}`] for each
    key flagged [searchText]. *)
Fixpoint search_columns (tableName : string) (fields : list (string * FieldDesc))
  : list string :=
  match fields with
  | [] => []
  | (key, value) :: rest =>
      if f_searchText value
      then (tableName +:+ "." +:+ key) :: search_columns tableName rest
      else search_columns tableName rest
  end.

Definition list_query (c : Crud) (args : ListArgs) (info : Fields E) : Query :=
  let baseQuery := knex_as (prefix c +:+ tableName c) (tableName c) in
  let select := selectBy E (schema c) info false (prefix c) in
  let queryBuilder := select baseQuery in
  let queryBuilder :=
    if truthy (limit args) then set_limit (limit args) queryBuilder
    else queryBuilder in
  let queryBuilder :=
    if truthy (offset args) then set_offset (offset args) queryBuilder
    else queryBuilder in
  let queryBuilder :=
    match order_column (orderBy args) with
    | Some column =>
        let order := order_direction (orderBy args) in
        let column := resolve_column (tableName c) (s_fields (schema c)) column in
        add_order column (Some order) queryBuilder
    | None => add_order (tableName c +:+ ".id") None queryBuilder
    end in
  match filter args with
  | Some f =>
      match searchText f with
      | Some text =>
          if negb (String.eqb text "")
          then add_where
                 (WhereLikeAny (search_columns (tableName c) (s_fields (schema c)))
                               ("%" +:+ text +:+ "%"))
                 queryBuilder
          else queryBuilder
      | None => queryBuilder
      end
  | None => queryBuilder
  end.

Definition _getList (c : Crud) (args : ListArgs) (info : Fields E)
  : Builder E (option (list (row E))) :=
  let q := list_query c args info in
  {| b_stmt := SelectNest q; b_run := run_select_list E q |}.

Definition getTotal (c : Crud) : Builder E Z :=
  {| b_stmt := CountDistinct (table_of c); b_run := run_count E (table_of c) |}.

Definition getPaginated (c : Crud) (args : ListArgs) (info : ResolveInfo E)
  : M E (Page (row E)) :=
  edges <- await (_getList c args (fields_get E "edges" (parseFields E info))) ;;
  count <- await (getTotal c) ;;
  ret {| edges := edges;
         totalCount := count;
         hasNextPage :=
           match edges with
           | None => VNull
           | Some es => VBool (strict_eq (VNum (Z.of_nat (length es))) (limit args))
           end |}.


(** [_get] once [{ where }] and [{ id }] are destructured. *)
Definition get_query (c : Crud) (id : value) (info : Fields E) : Query :=
  let baseQuery := knex_as (prefix c +:+ tableName c) (tableName c) in
  let select := selectBy E (schema c) info true (prefix c) in
  add_where (WhereCmp (tableName c +:+ ".id") "=" id) (select baseQuery).

Definition _get_id (c : Crud) (id : value) (info : Fields E)
  : Builder E (option (row E)) :=
  let q := get_query c id info in
  {| b_stmt := SelectNest q; b_run := run_select_one E q |}.

Definition _get (c : Crud) (where_ : value) (info : Fields E)
  : M E (Builder E (option (row E))) :=
  id <- get_prop where_ "id" ;;
  ret (_get_id c id info).

Definition get (c : Crud) (args : Args) (info : ResolveInfo E)
  : M E (payload (row E)) :=
  b <- _get c (where_ args) (fields_get E "node" (parseFields E info)) ;;
  node <- await b ;;
  ret (PNode node).

(** [this.get({ where: { id } }, info)]: the object literals are taken
    apart again by [_get], which reads [id] back. *)
Definition get_by_id (c : Crud) (id : value) (info : ResolveInfo E)
  : M E (payload (row E)) :=
  node <- await (_get_id c id (fields_get E "node" (parseFields E info))) ;;
  ret (PNode node).

Definition _create (c : Crud) (data : value) : M E (Builder E (list value)) :=
  h <- get_heap ;;
  let row := snapshot h data in
  ret {| b_stmt := Insert (table_of c) row;
         b_run := run_insert E (table_of c) row |}.

Definition _update (c : Crud) (data where_ : value) : M E (Builder E Z) :=
  h <- get_heap ;;
  let row := snapshot h data in
  let w := snapshot h where_ in
  ret {| b_stmt := Update (table_of c) row w;
         b_run := run_update E (table_of c) row w |}.

Definition _delete (c : Crud) (where_ : value) : M E (Builder E Z) :=
  h <- get_heap ;;
  let w := snapshot h where_ in
  ret {| b_stmt := Delete (table_of c) w;
         b_run := run_delete E (table_of c) w |}.

Definition _sort (c : Crud) (data : value) : M E (Builder E (list Z)) :=
  h <- get_heap ;;
  let bindings := snapshot h data in
  ret {| b_stmt := RankSwap (table_of c) bindings;
         b_run := run_rank_swap E (table_of c) bindings |}.

Definition _deleteMany (c : Crud) (where_ : value) : M E (Builder E Z) :=
  id_in <- get_prop where_ "id_in" ;;
  h <- get_heap ;;
  let ids := snapshot h id_in in
  ret {| b_stmt := DeleteIn (table_of c) ids;
         b_run := run_delete_in E (table_of c) ids |}.

(** The first loop of [create] and [update]: the nested entries are
    collected and deleted from the data object. *)
Fixpoint extract_nested (fields : list (string * FieldDesc)) (data : value)
    (nestedEntries : list (string * value)) : M E (list (string * value)) :=
  match fields with
  | [] => ret nestedEntries
  | (key, value) :: rest =>
      if is_array_type (f_type value) then
        v <- get_prop data key ;;
        if truthy v then
          delete_prop data key ;;
          extract_nested rest data (nestedEntries ++ [(key, v)])
        else extract_nested rest data nestedEntries
      else extract_nested rest data nestedEntries
  end.

(** [ctx[pascalize(nested.key)]], on which a method is then called. *)
Definition sibling (ctx : Ctx) (key : string) : M E Crud :=
  match ctx !! pascalize E key with
  | Some child => ret child
  | None => throw TypeError
  end.

(** The foreign key of a child row: [`${camelize(this.schema.name)}Id`]. *)
Definition foreign_key (c : Crud) : string :=
  camelize E (s_name (schema c)) +:+ "Id".

Definition catch_errors (body : M E (payload (row E))) : M E (payload (row E)) :=
  try_catch body (λ e, ret (PErrors e)).

(** The callback of [nested.data.create.map(async create => { .. })]:
    [create[`${camelize(this.schema.name)}Id`] = <parent id>;
     await ctx[pascalize(nested.key)]._create(create);]
    [parent] is the right-hand side of the assignment, [id] in [create]
    and [args.where.id] in [update]. *)
Definition create_child (c : Crud) (ctx : Ctx) (parent : M E value)
    (key : string) (create : value) : M E unit :=
  detach (
    id <- parent ;;
    set_prop create (foreign_key c) id ;;
    child <- sibling ctx key ;;
    b <- _create child create ;;
    hand_over b).

(** [async update => { await ctx[pascalize(nested.key)]._update(update); }],
    where [_update] destructures [{ data, where }]. *)
Definition update_child (ctx : Ctx) (key : string) (update : value) : M E unit :=
  detach (
    child <- sibling ctx key ;;
    d <- get_prop update "data" ;;
    w <- get_prop update "where" ;;
    b <- _update child d w ;;
    hand_over b).

(** [async where => { await ctx[pascalize(nested.key)]._delete({ where }); }] *)
Definition delete_child (ctx : Ctx) (key : string) (where_ : value) : M E unit :=
  detach (
    child <- sibling ctx key ;;
    b <- _delete child where_ ;;
    hand_over b).

(** [if (nested.data[name]) { nested.data[name].map(callback); }] *)
Definition map_nested (nested : string * value) (name : string)
    (callback : string → value → M E unit) : M E unit :=
  list <- get_prop (snd nested) name ;;
  if truthy list then
    entries <- array_elems list ;;
    for_each (callback (fst nested)) entries
  else ret tt.

Definition create (c : Crud) (args : Args) (ctx : Ctx) (info : ResolveInfo E)
  : M E (payload (row E)) :=
  catch_errors (
    let e := FieldError.new in
    lift (FieldError.throwIf e) ;;
    (* extract nested entries from data *)
    nestedEntries <- extract_nested (s_fields (schema c)) (data args) [] ;;
    ids <- (b <- _create c (data args) ;; await b) ;;
    let id := hd VUndefined ids in
    (* create nested entries *)
    (if (0 <? length nestedEntries)%nat then
       for_each (λ nested,
         map_nested nested "create" (create_child c ctx (ret id)))
         nestedEntries
     else ret tt) ;;
    get_by_id c id info).

Definition update (c : Crud) (args : Args) (ctx : Ctx) (info : ResolveInfo E)
  : M E (payload (row E)) :=
  catch_errors (
    let e := FieldError.new in
    lift (FieldError.throwIf e) ;;
    (* extract nested entries from data *)
    nestedEntries <- extract_nested (s_fields (schema c)) (data args) [] ;;
    (b <- _update c (data args) (where_ args) ;; await b) ;;
    (* create, update, delete nested entries *)
    (if (0 <? length nestedEntries)%nat then
       for_each (λ nested,
         map_nested nested "create"
           (create_child c ctx (get_prop (where_ args) "id")) ;;
         map_nested nested "update" (update_child ctx) ;;
         map_nested nested "delete" (delete_child ctx))
         nestedEntries
     else ret tt) ;;
    get c args info).

Definition delete (c : Crud) (args : Args) (info : ResolveInfo E)
  : M E (payload (row E)) :=
  catch_errors (
    let e := FieldError.new in
    node <- get c args info ;;
    e <- (if negb (match node with PUndefined => false | _ => true end) then
            let e := FieldError.setError "delete" "Node does not exist." e in
            lift (FieldError.throwIf e) ;;
            ret e
          else ret e) ;;
    isDeleted <- (b <- _delete c (where_ args) ;; await b) ;;
    if truthy (VNum isDeleted) then ret node
    else
      let e := FieldError.setError "delete"
                 "Could not delete Node. Please try again later." e in
      lift (FieldError.throwIf e) ;;
      ret PUndefined).

Definition sort (c : Crud) (args : Args) : M E (payload (row E)) :=
  catch_errors (
    let e := FieldError.new in
    lift (FieldError.throwIf e) ;;
    r <- (b <- _sort c (data args) ;; await b) ;;
    match r with
    | [] => throw TypeError
    | affectedRows :: _ =>
        if (0 <? affectedRows)%Z then ret (PCount affectedRows)
        else
          let e := FieldError.setError "sort"
                     "Could not sort Node. Please try again later." e in
          lift (FieldError.throwIf e) ;;
          ret PUndefined
    end).

Definition updateMany (c : Crud) (args : Args) : M E (payload (row E)) :=
  catch_errors (
    let e := FieldError.new in
    let e := FieldError.setError "update"
               "Not yet implemented. Please try again later." e in
    ret PUndefined).

Definition deleteMany (c : Crud) (args : Args) : M E (payload (row E)) :=
  catch_errors (
    let e := FieldError.new in
    deleteCount <- (b <- _deleteMany c (where_ args) ;; await b) ;;
    if (0 <? deleteCount)%Z then ret (PCount deleteCount)
    else
      let e := FieldError.setError "delete"
                 "Could not delete any of selected Node. Please try again later." e in
      lift (FieldError.throwIf e) ;;
      ret PUndefined).

(** Modelled from the spec: orderedFor of ./helpers, which Crud imports
    and which is not among the sources.  The specification says of
    getByIds that it "re-orders results to match the input id order
    (batched-loader pattern)" and "preserves the input id ordering in its
    output regardless of the underlying query's row order": the output has
    one slot per element of the input collection, in the order of the
    collection, and the slot of an id holds the rows whose [field] is that
    id.  [rows] is what knexnest returned, null or an array.  The fourth
    argument of the only call, [false], is not described by the
    specification and has no counterpart here. *)
Definition orderedFor (rows : option (list (row E))) (collection : list value)
    (field : string) : list (list (row E)) :=
  map (λ element,
         List.filter (λ r, strict_eq (row_get E r field) element)
                     (default [] rows))
      collection.

Definition ids_query (ids : list value) (by_ : string) (Obj : Crud)
    (info : ResolveInfo E) : Query :=
  let info := parseFields E info in
  let info := fields_add E (by_ +:+ "Id") info in
  let baseQuery :=
    knex_as (getPrefix Obj +:+ getTableName Obj) (getTableName Obj) in
  let select := selectBy E (getSchema Obj) info false (getPrefix Obj) in
  add_where
    (WhereIn (getTableName Obj +:+ "." +:+ decamelize E by_ +:+ "_id") ids)
    (select baseQuery).

Definition getByIds (ids : list value) (by_ : string) (Obj : Crud)
    (info : ResolveInfo E) : M E (list (list (row E))) :=
  let q := ids_query ids by_ Obj info in
  res <- await {| b_stmt := SelectNest q; b_run := run_select_list E q |} ;;
  ret (orderedFor res ids (by_ +:+ "Id")).

End CrudMethods.

Arguments resolve_column : clear implicits.
Arguments list_query : clear implicits.
Arguments get_query : clear implicits.
Arguments ids_query : clear implicits.
Arguments foreign_key : clear implicits.

(** ** A concrete environment

    An in-memory database and plain-ASCII versions of the casing helpers,
    on which the methods can be run.  The theorems below hold for every
    environment; this one supplies the concrete calls. *)
Module Mem.

Definition is_upper (a : Ascii.ascii) : bool :=
  let n := Ascii.nat_of_ascii a in (65 <=? n)%nat && (n <=? 90)%nat.

Definition is_lower (a : Ascii.ascii) : bool :=
  let n := Ascii.nat_of_ascii a in (97 <=? n)%nat && (n <=? 122)%nat.

Definition to_lower (a : Ascii.ascii) : Ascii.ascii :=
  if is_upper a then Ascii.ascii_of_nat (Ascii.nat_of_ascii a + 32) else a.

Definition to_upper (a : Ascii.ascii) : Ascii.ascii :=
  if is_lower a then Ascii.ascii_of_nat (Ascii.nat_of_ascii a - 32) else a.

Definition is_separator (a : Ascii.ascii) : bool :=
  let n := Ascii.nat_of_ascii a in
  (n =? 45)%nat || (n =? 95)%nat || (n =? 32)%nat.

Fixpoint join_words (up : bool) (s : string) : string :=
  match s with
  | EmptyString => EmptyString
  | String a s' =>
      if is_separator a then join_words true s'
      else String (if up then to_upper a else a) (join_words false s')
  end.

Definition map_first (f : Ascii.ascii → Ascii.ascii) (s : string) : string :=
  match s with
  | EmptyString => EmptyString
  | String a s' => String (f a) s'
  end.

(** fooBar from foo_bar, foo-bar or Foo bar *)
Definition to_camel (s : string) : string :=
  map_first to_lower (join_words false s).

Definition to_pascal (s : string) : string := map_first to_upper (to_camel s).

Fixpoint split_words (s : string) : string :=
  match s with
  | EmptyString => EmptyString
  | String a s' =>
      if is_upper a then String "_"%char (String (to_lower a) (split_words s'))
      else String a (split_words s')
  end.

(** foo_bar from fooBar *)
Definition to_snake (s : string) : string :=
  match s with
  | EmptyString => EmptyString
  | String a s' => String (to_lower a) (split_words s')
  end.

(** A stored row: its table, its id, its columns by field name. *)
Record mrow := {
  m_table : string;
  m_id : Z;
  m_cols : props
}.

Definition store := list mrow.

Definition in_table (t : string) (r : mrow) : bool := String.eqb (m_table r) t.

Definition next_id (d : store) : Z :=
  1 + foldr (λ r acc, Z.max (m_id r) acc) 0%Z d.

(** Every property of the filter object equals the row's column. *)
Definition matches (w : props) (r : mrow) : bool :=
  forallb (λ kv : string * value,
             strict_eq (prop_get (fst kv) (m_cols r)) (snd kv)) w.

Definition selected (t : string) (w : snap) (r : mrow) : bool :=
  in_table t r &&
  match w with
  | SObj o => matches o r
  | _ => false
  end.

Definition insert (t : string) (row : snap) (d : store)
  : (string + list value) * store :=
  let id := next_id d in
  let cols := match row with SObj o => o | _ => [] end in
  (inr [VNum id],
   d ++ [{| m_table := t; m_id := id; m_cols := prop_set "id" (VNum id) cols |}]).

Definition assign (o : props) (r : mrow) : mrow :=
  {| m_table := m_table r; m_id := m_id r;
     m_cols := foldl (λ acc kv, prop_set (fst kv) (snd kv) acc) (m_cols r) o |}.

Definition update (t : string) (row w : snap) (d : store)
  : (string + Z) * store :=
  let o := match row with SObj o => o | _ => [] end in
  (inr (Z.of_nat (length (List.filter (selected t w) d))),
   map (λ r, if selected t w r then assign o r else r) d).

Definition delete (t : string) (w : snap) (d : store) : (string + Z) * store :=
  (inr (Z.of_nat (length (List.filter (selected t w) d))),
   List.filter (λ r, negb (selected t w r)) d).

Definition listed (t : string) (ids : snap) (r : mrow) : bool :=
  in_table t r &&
  match ids with
  | SArr vs => existsb (strict_eq (VNum (m_id r))) vs
  | _ => false
  end.

Definition delete_in (t : string) (ids : snap) (d : store)
  : (string + Z) * store :=
  (inr (Z.of_nat (length (List.filter (listed t ids) d))),
   List.filter (λ r, negb (listed t ids r)) d).

Definition has_id (t : string) (id : value) (r : mrow) : bool :=
  in_table t r && strict_eq (VNum (m_id r)) id.

(** The joined update touches both rows or, when one of the two ids is
    missing, none. *)
Definition rank_swap (t : string) (bindings : snap) (d : store)
  : (string + list Z) * store :=
  match bindings with
  | SArr [id1; id2; rank1; rank2] =>
      if existsb (has_id t id1) d && existsb (has_id t id2) d then
        (inr [2%Z],
         map (λ r, if has_id t id1 r then assign [("rank", rank1)] r
                   else if has_id t id2 r then assign [("rank", rank2)] r
                   else r) d)
      else (inr [0%Z], d)
  | _ => (inl "bindings", d)
  end.

(** The field a qualified column stands for: [postId] for
    [comment.post_id]. *)
Fixpoint after_dot (s : string) : option string :=
  match s with
  | EmptyString => None
  | String a s' =>
      if Ascii.eqb a "."%char then Some s'
      else after_dot s'
  end.

Definition field_of (column : string) : string :=
  to_camel (default column (after_dot column)).

(** Free-text patterns are not interpreted: such a clause keeps every
    row. *)
Definition satisfies (r : mrow) (w : where_clause) : bool :=
  match w with
  | WhereCmp col _ v => strict_eq (prop_get (field_of col) (m_cols r)) v
  | WhereIn col vs => existsb (strict_eq (prop_get (field_of col) (m_cols r))) vs
  | WhereLikeAny _ _ => true
  end.

Definition answers (q : Query) (r : mrow) : bool :=
  in_table (q_table q) r && forallb (satisfies r) (q_where q).

Definition window (n : option value) (f : nat → list props → list props)
    (l : list props) : list props :=
  match n with
  | Some (VNum k) => f (Z.to_nat k) l
  | _ => l
  end.

Definition select_list (q : Query) (d : store)
  : (string + option (list props)) * store :=
  let rows := map m_cols (List.filter (answers q) d) in
  let rows := window (q_limit q) take (window (q_offset q) drop rows) in
  (inr (match rows with [] => None | _ => Some rows end), d).

Definition select_one (q : Query) (d : store)
  : (string + option props) * store :=
  (inr (head (map m_cols (List.filter (answers q) d))), d).

Definition count (t : string) (d : store) : (string + Z) * store :=
  (inr (Z.of_nat (length (List.filter (in_table t) d))), d).

Definition select_by (s : Schema) (fields : list string) (single : bool)
    (pre : string) (q : Query) : Query :=
  {| q_table := q_table q; q_alias := q_alias q; q_columns := fields;
     q_joins := q_joins q; q_limit := q_limit q; q_offset := q_offset q;
     q_order := q_order q; q_where := q_where q |}.

Definition env : Env :=
  {| camelize := to_camel;
     pascalize := to_pascal;
     decamelize := to_snake;
     ResolveInfo := list string;
     Fields := list string;
     parseFields := λ info, info;
     fields_get := λ _ fields, fields;
     fields_add := λ k fields, fields ++ [k];
     selectBy := select_by;
     db := store;
     row := props;
     row_get := λ r k, prop_get k r;
     run_insert := insert;
     run_update := update;
     run_delete := delete;
     run_delete_in := delete_in;
     run_rank_swap := rank_swap;
     run_select_one := select_one;
     run_select_list := select_list;
     run_count := count |}.

(** Two tables: posts, and the comments of a post. *)
Definition Comment : Schema :=
  MkSchema "Comment"
    [("id", MkField (TScalar "Number") false false);
     ("content", MkField (TScalar "String") false true);
     ("postId", MkField (TScalar "Number") false false)].

Definition Post : Schema :=
  MkSchema "Post"
    [("id", MkField (TScalar "Number") false false);
     ("title", MkField (TScalar "String") true true);
     ("comments", MkField (TArray (TSchema Comment)) false false)].

Definition posts : Crud :=
  {| prefix := "app_"; tableName := "post"; schema := Post |}.

Definition comments : Crud :=
  {| prefix := "app_"; tableName := "comment"; schema := Comment |}.

Definition ctx : gmap string Crud :=
  <["Post" := posts]> (<["Comments" := comments]> ∅).

Definition world (h : heap) (d : store) : World env :=
  Build_World env h d [].

End Mem.

(** ** What the specification expects of nested writes

    These definitions follow the specification's words, not the loops of
    [create] and [update]: they are computed from the caller's heap as it is
    before the call, and the theorems compare the methods with them. *)

Section Expected.

Context {E : Env}.

Definition as_loc (v : value) : option loc :=
  match v with VRef l => Some l | _ => None end.

(** The properties of the object [v] refers to. *)
Definition obj_at (h : heap) (v : value) : props :=
  match v with
  | VRef l => from_option cell_props [] (h !! l)
  | _ => []
  end.

(** The elements of the array [v] refers to. *)
Definition list_at (h : heap) (v : value) : list value :=
  match v with
  | VRef l => match h !! l with Some (CArr es _) => es | _ => [] end
  | _ => []
  end.

(** "fields whose declared type is an array-of-schema (nested
    collections)", as far as the payload [o] holds something for them. *)
Definition is_nested (o : props) (kd : string * FieldDesc) : bool :=
  is_array_type (f_type (snd kd)) && truthy (prop_get (fst kd) o).

Definition nested_keys (s : Schema) (o : props) : list string :=
  map fst (List.filter (is_nested o) (s_fields s)).

(** The payload with the nested collections stripped out. *)
Definition without (keys : list string) (o : props) : props :=
  List.filter (λ kv : string * value, negb (bool_decide (fst kv ∈ keys))) o.

(** The entries of the sub-list [name] (create, update, delete) of the
    nested collection under [key]. *)
Definition entries_of (name : string) (h : heap) (o : props) (key : string)
  : list value :=
  list_at h (prop_get name (obj_at h (prop_get key o))).

Definition nested_locs (o : props) (keys : list string) : list loc :=
  omap (λ k, as_loc (prop_get k o)) keys.

Definition entry_locs (h : heap) (o : props) (keys : list string) : list loc :=
  List.flat_map (λ k, omap as_loc (entries_of "create" h o k)) keys.

(** "injecting the parent's id under the foreign-key convention" *)
Definition with_foreign_key (fk : string) (id : value) (c : cell) : cell :=
  cell_with_props c (prop_set fk id (cell_props c)).

(** The heap once each of [locs] has received the foreign key. *)
Definition mark_entries (fk : string) (id : value) (locs : list loc) (h : heap)
  : heap :=
  foldl (λ acc l, alter (with_foreign_key fk id) l acc) h locs.

(** One child insert per entry of each stripped collection, in the order
    of the collections and of their create lists. *)
Definition child_creates (c : Crud) (children : string → Crud) (h : heap)
    (o : props) (id : value) (keys : list string) : list (stmt * mode) :=
  List.flat_map
    (λ k, map (λ e, (Insert (table_of (children k))
                            (SObj (prop_set (foreign_key E c) id (obj_at h e))),
                     Detached))
              (entries_of "create" h o k))
    keys.

(** Nested collections as a resolver receives them: under each of [keys]
    the payload [o] holds an object of its own; the sub-lists [names] of
    these objects are missing (or falsy) or arrays; the entries of the
    create lists are objects; and no object is shared between these
    places. *)
Record collections (names : list string) (h : heap) (o : props)
    (keys : list string) : Prop := {
  co_nested : ∀ k, k ∈ keys →
    ∃ lk ok, prop_get k o = VRef lk ∧ h !! lk = Some (CObj ok);
  co_lists : ∀ k name, k ∈ keys → name ∈ names →
    truthy (prop_get name (obj_at h (prop_get k o))) = false ∨
    ∃ la es x, prop_get name (obj_at h (prop_get k o)) = VRef la ∧
               h !! la = Some (CArr es x);
  co_entries : ∀ k e, k ∈ keys → e ∈ entries_of "create" h o k →
    ∃ le oe, e = VRef le ∧ h !! le = Some (CObj oe);
  co_apart : NoDup (nested_locs o keys ++ entry_locs h o keys)
}.

(** A payload as a resolver receives it: the object at [l] with
    properties [o], its nested collections, and the payload object itself
    none of the nested objects. *)
Record tree_payload (names : list string) (h : heap) (l : loc) (o : props)
    (keys : list string) : Prop := {
  tp_root : h !! l = Some (CObj o);
  tp_collections : collections names h o keys;
  tp_apart : l ∉ nested_locs o keys ++ entry_locs h o keys
}.

(** The sub-lists [create] reads, and those [update] reads. *)
Definition create_names : list string := ["create"].
Definition update_names : list string := ["create"; "update"; "delete"].

(** [h'] is [h] except for the properties of cells outside [locs]. *)
Record agrees (locs : list loc) (h h' : heap) : Prop := {
  ag_same : ∀ l, l ∈ locs → h' !! l = h !! l;
  ag_arrays : ∀ la es x, h !! la = Some (CArr es x) →
                         ∃ x', h' !! la = Some (CArr es x')
}.

(** What the caller finds in its heap after a nested write: the payload
    object stripped, the foreign key on every entry of a create list, and
    every other cell as it was. *)
Definition payload_mutated (fk : string) (id : value) (l : loc) (o : props)
    (keys : list string) (h h' : heap) : Prop :=
  h' !! l = Some (CObj (without keys o)) ∧
  (∀ le, le ∈ entry_locs h o keys →
         h' !! le = with_foreign_key fk id <$> h !! le) ∧
  (∀ l', l' ≠ l → l' ∉ entry_locs h o keys → h' !! l' = h !! l').

Definition with_heap (w : World E) (h : heap) : World E :=
  Build_World E h (w_store w) (w_issued w).

(** Computations that leave the caller's heap alone. *)
Definition keeps_heap {A} (m : M E A) : Prop :=
  ∀ w, w_heap (snd (m w)) = w_heap w.


(** The sentence on the caller's argument, read literally: after the
    call, no field whose declared type is an array is left in the data
    object. *)
Definition update_deletes_every_array_field (c : Crud) (args : Args)
    (ctx : gmap string Crud) (info : ResolveInfo E) (w : World E) : Prop :=
  ∀ l o key d,
    data args = VRef l →
    w_heap w !! l = Some (CObj o) →
    (key, d) ∈ s_fields (schema c) →
    is_array_type (f_type d) = true →
    is_Some (prop_lookup key o) →
    ∃ o', w_heap (snd (update c args ctx info w)) !! l = Some (CObj o') ∧
          prop_lookup key o' = None.

(** What the caller of a mutation is promised: the successful payload
    ([{ node }] or [{ count }]) or [{ errors }], and no rejection. *)
Definition answers_caller (r : result (payload (row E))) : Prop :=
  match r with
  | Ok (PNode _) | Ok (PCount _) | Ok (PErrors _) => True
  | Ok PUndefined | Throw _ => False
  end.

End Expected.

Arguments child_creates : clear implicits.

(** ** Concrete calls *)
Module Cases.

Import Mem.

(** [{ title: 'a', comments: { create: [{ content: 'x' }, { content: 'y' }] } }] *)
Definition post_with_comments : heap :=
  <[1%positive := CObj [("title", VStr "a"); ("comments", VRef 2)]]>
  (<[2%positive := CObj [("create", VRef 3)]]>
  (<[3%positive := CArr [VRef 4; VRef 5] []]>
  (<[4%positive := CObj [("content", VStr "x")]]>
  (<[5%positive := CObj [("content", VStr "y")]]> ∅)))).


(** [{ data: { title: 'b', comments: null }, where: { id: 1 } }] *)
Definition retitle_with_null_comments : heap :=
  <[1%positive := CObj [("title", VStr "b"); ("comments", VNull)]]>
  (<[2%positive := CObj [("id", VNum 1)]]> ∅).

(** [{ data: { title: 'b', comments: { create: [{ content: 'z' }] } },
       where: { id: 1 } }] *)
Definition retitle_with_comment : heap :=
  <[1%positive := CObj [("title", VStr "b"); ("comments", VRef 3)]]>
  (<[2%positive := CObj [("id", VNum 1)]]>
  (<[3%positive := CObj [("create", VRef 4)]]>
  (<[4%positive := CArr [VRef 5] []]>
  (<[5%positive := CObj [("content", VStr "z")]]> ∅)))).

(** [{ where: { id: 42 } }] *)
Definition where_id_42 : heap := <[1%positive := CObj [("id", VNum 42)]]> ∅.

(** [{ where: { id: 1 } }] *)
Definition where_id_1 : heap := <[1%positive := CObj [("id", VNum 1)]]> ∅.

(** [{ data: [1, 2, 20, 10] }]: the ranks of rows 1 and 2 *)
Definition swap_1_2 : heap :=
  <[1%positive := CArr [VNum 1; VNum 2; VNum 20; VNum 10] []]> ∅.

Definition one_post : store :=
  [{| m_table := "app_post"; m_id := 1;
      m_cols := [("id", VNum 1); ("title", VStr "a")] |}].

Definition two_posts : store :=
  one_post ++
  [{| m_table := "app_post"; m_id := 2;
      m_cols := [("id", VNum 2); ("title", VStr "c")] |}].

Definition three_comments : store :=
  [{| m_table := "app_comment"; m_id := 1;
      m_cols := [("id", VNum 1); ("content", VStr "x"); ("postId", VNum 2)] |};
   {| m_table := "app_comment"; m_id := 2;
      m_cols := [("id", VNum 2); ("content", VStr "y"); ("postId", VNum 1)] |};
   {| m_table := "app_comment"; m_id := 3;
      m_cols := [("id", VNum 3); ("content", VStr "z"); ("postId", VNum 2)] |}].

Definition args_data (l : loc) : Args := {| data := VRef l; where_ := VUndefined |}.
Definition args_where (l : loc) : Args := {| data := VUndefined; where_ := VRef l |}.
Definition args_both (d w : loc) : Args := {| data := VRef d; where_ := VRef w |}.
Arguments args_data l%_positive.
Arguments args_where l%_positive.
Arguments args_both (d w)%_positive.

Definition no_order (n : Z) : ListArgs :=
  {| limit := VNum n; offset := VUndefined; orderBy := None; filter := None |}.

End Cases.

(** ** Further descriptions

    What the remaining paths of the methods are compared with: the shape
    of an answer, the shape of the caller's heap, and the requests a nested
    update or delete list stands for. *)

Section Further.

Context {E : Env}.

(** [{ node }] or [{ errors }] *)
Definition node_or_errors (r : result (payload (row E))) : Prop :=
  match r with
  | Ok (PNode _) | Ok (PErrors _) => True
  | _ => False
  end.

(** [{ count }] with a positive count, or [{ errors }] *)
Definition count_or_errors (r : result (payload (row E))) : Prop :=
  match r with
  | Ok (PCount n) => (0 < n)%Z
  | Ok (PErrors _) => True
  | _ => False
  end.

(** The same objects and arrays at the same places, the arrays with the
    same elements; only properties may differ. *)
Definition same_shape (h h' : heap) : Prop :=
  ∀ l, match h !! l, h' !! l with
       | Some (CObj _), Some (CObj _) => True
       | Some (CArr es _), Some (CArr es' _) => es = es'
       | None, None => True
       | _, _ => False
       end.

Definition keeps_shape {A} (m : M E A) : Prop :=
  ∀ w, same_shape (w_heap w) (w_heap (snd (m w))).

(** Reading [v[k]] without running anything: nothing when the read would
    throw. *)
Definition read_prop (h : heap) (v : value) (k : string) : option value :=
  match v with
  | VUndefined | VNull => None
  | VRef l => (λ c, prop_get k (cell_props c)) <$> h !! l
  | _ => Some VUndefined
  end.

(** The request an entry of a nested update list stands for: an update of
    the sibling's table with the entry's [data] and [where]. *)
Definition update_request (child : Crud) (h : heap) (e : value)
  : option (stmt * mode) :=
  d ← read_prop h e "data";
  w ← read_prop h e "where";
  Some (Update (table_of child) (snapshot h d) (snapshot h w), Detached).

(** The request an entry of a nested delete list stands for: a delete from
    the sibling's table with the entry as filter. *)
Definition delete_request (child : Crud) (h : heap) (e : value) : stmt * mode :=
  (Delete (table_of child) (snapshot h e), Detached).

Definition with_issued (w : World E) (l : list (stmt * mode)) : World E :=
  Build_World E (w_heap w) (w_store w) (w_issued w ++ l).

(** The specification's sentence on [hasNextPage], read to the letter: the
    page of a call has it true exactly when the number of returned edges
    is the requested limit (a missing edge list has no edge). *)
Definition next_page_iff_full (c : Crud) (args : ListArgs)
    (info : ResolveInfo E) (w : World E) : Prop :=
  ∀ page w',
    getPaginated c args info w = (Ok page, w') →
    (hasNextPage page = VBool true ↔
     limit args = VNum (Z.of_nat (length (default [] (edges page))))).

(** The keys of a list of fields flagged [sortBy]. *)
Definition sort_keys (fields : list (string * FieldDesc)) : list string :=
  map fst (List.filter (λ kd : string * FieldDesc, f_sortBy (snd kd)) fields).

(** What the order column becomes at a key it equals. *)
Definition qualified (tableName column : string) (d : FieldDesc) : string :=
  match is_schema_type (f_type d) with
  | Some remote =>
      decamelize E (s_name remote) +:+ "." +:+
      default "name" (last (sort_keys (s_fields remote)))
  | None => tableName +:+ "." +:+ decamelize E column
  end.

End Further.

Arguments qualified : clear implicits.

(** ** Further concrete calls *)
Module MoreCases.

Import Mem.

(** [{ where: { id: 2 } }] *)
Definition where_id_2 : heap := <[1%positive := CObj [("id", VNum 2)]]> ∅.

(** [{ where: { id_in: [1, 2] } }] *)
Definition where_id_in_1_2 : heap :=
  <[1%positive := CObj [("id_in", VRef 2)]]>
  (<[2%positive := CArr [VNum 1; VNum 2] []]> ∅).

(** [{ data: { title: 'a', comments: { create: { content: 'x' } } } }]: the
    create list is an object, not an array. *)
Definition post_with_bad_create : heap :=
  <[1%positive := CObj [("title", VStr "a"); ("comments", VRef 2)]]>
  (<[2%positive := CObj [("create", VRef 3)]]>
  (<[3%positive := CObj [("content", VStr "x")]]> ∅)).

(** The entries [{ data: { content: 'w' }, where: { id: 1 } }] and [null]
    of a nested update list, and [{ id: 3 }] of a nested delete list. *)
Definition nested_requests : heap :=
  <[1%positive := CObj [("data", VRef 2); ("where", VRef 3)]]>
  (<[2%positive := CObj [("content", VStr "w")]]>
  (<[3%positive := CObj [("id", VNum 1)]]>
  (<[4%positive := CObj [("id", VNum 3)]]> ∅))).

(** [{ data: { title: 'b',
               comments: { update: [{ data: { content: 'w' }, where: { id: 1 } }],
                           delete: [{ id: 3 }] } },
       where: { id: 1 } }] *)
Definition retitle_with_requests : heap :=
  <[1%positive := CObj [("title", VStr "b"); ("comments", VRef 3)]]>
  (<[2%positive := CObj [("id", VNum 1)]]>
  (<[3%positive := CObj [("update", VRef 4); ("delete", VRef 5)]]>
  (<[4%positive := CArr [VRef 6] []]>
  (<[5%positive := CArr [VRef 9] []]>
  (<[6%positive := CObj [("data", VRef 7); ("where", VRef 8)]]>
  (<[7%positive := CObj [("content", VStr "w")]]>
  (<[8%positive := CObj [("id", VNum 1)]]>
  (<[9%positive := CObj [("id", VNum 3)]]> ∅)))))))).

(** A store whose inserts are rejected. *)
Definition read_only : Env :=
  {| camelize := to_camel;
     pascalize := to_pascal;
     decamelize := to_snake;
     ResolveInfo := list string;
     Fields := list string;
     parseFields := λ info, info;
     fields_get := λ _ fields, fields;
     fields_add := λ k fields, fields ++ [k];
     selectBy := select_by;
     db := store;
     row := props;
     row_get := λ r k, prop_get k r;
     run_insert := λ _ _ d, (inl "read only", d);
     run_update := λ _ _ _ d, (inl "read only", d);
     run_delete := λ _ _ d, (inl "read only", d);
     run_delete_in := λ _ _ d, (inl "read only", d);
     run_rank_swap := λ _ _ d, (inl "read only", d);
     run_select_one := select_one;
     run_select_list := select_list;
     run_count := count |}.

(** A store that answers no query. *)
Definition offline : Env :=
  {| camelize := to_camel;
     pascalize := to_pascal;
     decamelize := to_snake;
     ResolveInfo := list string;
     Fields := list string;
     parseFields := λ info, info;
     fields_get := λ _ fields, fields;
     fields_add := λ k fields, fields ++ [k];
     selectBy := select_by;
     db := store;
     row := props;
     row_get := λ r k, prop_get k r;
     run_insert := λ _ _ d, (inl "offline", d);
     run_update := λ _ _ _ d, (inl "offline", d);
     run_delete := λ _ _ d, (inl "offline", d);
     run_delete_in := λ _ _ d, (inl "offline", d);
     run_rank_swap := λ _ _ d, (inl "offline", d);
     run_select_one := λ _ d, (inl "offline", d);
     run_select_list := λ _ d, (inl "offline", d);
     run_count := λ _ d, (inl "offline", d) |}.

Definition by_title (direction : option string) : ListArgs :=
  {| limit := VNum 0; offset := VUndefined;
     orderBy := Some {| column := Some "title"; order := direction |};
     filter := Some {| searchText := Some "rocq" |} |}.

End MoreCases.

(** * Properties *)

(** ** Running a method body *)

Section MonadLemmas.

Context {E : Env}.

Lemma bind_ok {A B} (m : M E A) (k : A → M E B) w a w1 :
  m w = (Ok a, w1) → bind m k w = k a w1.
Proof. intros H. unfold bind. by rewrite H. Qed.

Lemma bind_throw {A B} (m : M E A) (k : A → M E B) w e w1 :
  m w = (Throw e, w1) → bind m k w = (Throw e, w1).
Proof. intros H. unfold bind. by rewrite H. Qed.

Lemma bind_ok_inv {A B} (m : M E A) (k : A → M E B) w b w2 :
  bind m k w = (Ok b, w2) →
  ∃ a w1, m w = (Ok a, w1) ∧ k a w1 = (Ok b, w2).
Proof.
  unfold bind. destruct (m w) as [[a|e] w1]; [eauto | discriminate].
Qed.

(** A body under [try]/[catch] never rejects: it returns its value, or
    the thrown value wrapped as [{ errors }]. *)
Lemma catch_errors_total (body : M E (payload (row E))) w :
  ∃ p w', catch_errors body w = (Ok p, w') ∧
          (body w = (Ok p, w') ∨ ∃ e, body w = (Throw e, w') ∧ p = PErrors e).
Proof.
  unfold catch_errors, try_catch.
  destruct (body w) as [[p|e] w'] eqn:Hb; eauto 7.
Qed.

Lemma await_ok {A} (b : Builder E A) w a d :
  b_run b (w_store w) = (inr a, d) →
  await b w =
    (Ok a, {| w_heap := w_heap w; w_store := d;
              w_issued := w_issued w ++ [(b_stmt b, Awaited)] |}).
Proof. intros H. unfold await, bind, log. simpl. by rewrite H. Qed.

Lemma await_rejected {A} (b : Builder E A) w msg d :
  b_run b (w_store w) = (inl msg, d) →
  await b w =
    (Throw (DbError msg),
     {| w_heap := w_heap w; w_store := d;
        w_issued := w_issued w ++ [(b_stmt b, Awaited)] |}).
Proof. intros H. unfold await, bind, log. simpl. by rewrite H. Qed.

Lemma await_issued {A} (b : Builder E A) w :
  w_issued (snd (await b w)) = w_issued w ++ [(b_stmt b, Awaited)] ∧
  w_heap (snd (await b w)) = w_heap w.
Proof.
  unfold await, bind, log. simpl.
  by destruct (b_run b (w_store w)) as [[msg|a] d].
Qed.

Lemma get_prop_pure v k w :
  snd (get_prop (E:=E) v k w) = w.
Proof.
  destruct v; try reflexivity.
  simpl. unfold bind, get_heap. by destruct (w_heap w !! l).
Qed.

End MonadLemmas.

(** ** updateMany *)

(** C1. The specification has updateMany always report a "not implemented"
    error.  The method records that error in its bag and then ends: for
    every argument and every state it returns undefined, with neither a
    payload nor [{ errors }], and leaves the world as it was. *)
Theorem updateMany_returns_undefined (E : Env) (c : Crud) (args : Args) (w : World E) :
  updateMany c args w = (Ok PUndefined, w) ∧
  ∀ e, fst (updateMany c args w) ≠ Ok (PErrors e).
Proof.
  split.
  - unfold updateMany, catch_errors, try_catch. reflexivity.
  - intros e. unfold updateMany, catch_errors, try_catch. simpl. discriminate.
Qed.

(** ** sort *)

(** C8. When the rank-swap statement reports [n] affected rows, sort
    returns [{ count: n }] if [n] is at least one, and the field error
    "Could not sort Node." if [n] is zero. *)
Theorem sort_reports_count (E : Env) (c : Crud) (args : Args) (w : World E)
    (n : Z) (rest : list Z) (d : db E) :
  let bindings := snapshot (w_heap w) (data args) in
  run_rank_swap E (table_of c) bindings (w_store w) = (inr (n :: rest), d) →
  let w' := Build_World E (w_heap w) d
              (w_issued w ++ [(RankSwap (table_of c) bindings, Awaited)]) in
  ((0 < n)%Z → sort c args w = (Ok (PCount n), w')) ∧
  (n = 0%Z →
   sort c args w =
     (Ok (PErrors (FieldErrors
            [("sort", "Could not sort Node. Please try again later.")])), w')).
Proof.
  intros bindings Hrun w'.
  assert (Hbody : (b <- _sort c (data args) ;; await b) w = (Ok (n :: rest), w')).
  { unfold _sort, await, bind, log, get_heap, ret. simpl.
    fold bindings. by rewrite Hrun. }
  split; intros Hn.
  - unfold sort, catch_errors, try_catch.
    rewrite (bind_ok _ _ w tt w) by reflexivity.
    rewrite (bind_ok _ _ _ _ _ Hbody).
    apply Z.ltb_lt in Hn. by rewrite Hn.
  - unfold sort, catch_errors, try_catch.
    rewrite (bind_ok _ _ w tt w) by reflexivity.
    rewrite (bind_ok _ _ _ _ _ Hbody).
    subst n. reflexivity.
Qed.

Lemma sort_reports_count_witness :
  sort (E := Mem.env) Mem.posts (Cases.args_data 1)
       (Mem.world Cases.swap_1_2 Cases.two_posts)
  = (Ok (PCount 2),
     Build_World Mem.env Cases.swap_1_2
       (snd (Mem.rank_swap "app_post"
               (SArr [VNum 1; VNum 2; VNum 20; VNum 10]) Cases.two_posts))
       [(RankSwap "app_post" (SArr [VNum 1; VNum 2; VNum 20; VNum 10]), Awaited)]).
Proof.
  apply (sort_reports_count Mem.env Mem.posts (Cases.args_data 1)
           (Mem.world Cases.swap_1_2 Cases.two_posts) 2 [] _ eq_refl).
  reflexivity.
Defined.

(** ** delete *)

Section Delete.

Context {E : Env}.

(** The two statements of delete, when the filter can be read and the
    fetch is answered. *)
Lemma delete_run (c : Crud) (args : Args) (info : ResolveInfo E) (w : World E)
    (id : value) (node : option (row E)) (d1 : db E) :
  get_prop (where_ args) "id" w = (Ok id, w) →
  let q := get_query E c id (fields_get E "node" (parseFields E info)) in
  let flt := snapshot (w_heap w) (where_ args) in
  run_select_one E q (w_store w) = (inr node, d1) →
  delete c args info w =
    match run_delete E (table_of c) flt d1 with
    | (inr n, d2) =>
        (Ok (if (n =? 0)%Z
             then PErrors (FieldErrors
                    [("delete", "Could not delete Node. Please try again later.")])
             else PNode node),
         Build_World E (w_heap w) d2
           (w_issued w ++ [(SelectNest q, Awaited);
                           (Delete (table_of c) flt, Awaited)]))
    | (inl msg, d2) =>
        (Ok (PErrors (DbError msg)),
         Build_World E (w_heap w) d2
           (w_issued w ++ [(SelectNest q, Awaited);
                           (Delete (table_of c) flt, Awaited)]))
    end.
Proof.
  intros Hid q flt Hsel.
  unfold delete, catch_errors, try_catch, get, _get.
  unfold bind at 1. unfold bind at 1. unfold bind at 1. unfold bind at 1.
  rewrite Hid. simpl.
  unfold await, bind, log, _delete, get_heap, ret. simpl.
  fold q. rewrite Hsel. simpl. fold flt.
  destruct (run_delete E (table_of c) flt d1) as [[msg|n] d2]; simpl.
  - by rewrite <- app_assoc.
  - destruct (n =? 0)%Z; simpl; by rewrite <- app_assoc.
Qed.

End Delete.

(** C5. delete first fetches the node the filter names, with the selection
    of the requested fields restricted by the one condition
    [`${tableName}.id` = where.id], and then deletes by the same filter:
    when the delete statement affects at least one row, the node fetched
    before the deletion is returned, and when it affects none the field
    error "Could not delete Node." is returned. *)
Theorem delete_returns_fetched_node (E : Env) (c : Crud) (args : Args)
    (info : ResolveInfo E) (w : World E) (id : value) (node : option (row E))
    (d1 d2 : db E) (n : Z) :
  get_prop (where_ args) "id" w = (Ok id, w) →
  let selected := selectBy E (schema c) (fields_get E "node" (parseFields E info))
                    true (prefix c)
                    (knex_as (prefix c +:+ tableName c) (tableName c)) in
  let q := {| q_table := q_table selected; q_alias := q_alias selected;
              q_columns := q_columns selected; q_joins := q_joins selected;
              q_limit := q_limit selected; q_offset := q_offset selected;
              q_order := q_order selected;
              q_where := q_where selected ++
                         [WhereCmp (tableName c +:+ ".id") "=" id] |} in
  let flt := snapshot (w_heap w) (where_ args) in
  run_select_one E q (w_store w) = (inr node, d1) →
  run_delete E (table_of c) flt d1 = (inr n, d2) →
  let w' := Build_World E (w_heap w) d2
              (w_issued w ++ [(SelectNest q, Awaited);
                              (Delete (table_of c) flt, Awaited)]) in
  ((0 < n)%Z → delete c args info w = (Ok (PNode node), w')) ∧
  (n = 0%Z →
   delete c args info w =
     (Ok (PErrors (FieldErrors
            [("delete", "Could not delete Node. Please try again later.")])), w')).
Proof.
  intros Hid selected q flt Hsel Hdel w'.
  change q with (get_query E c id (fields_get E "node" (parseFields E info)))
    in Hsel, w'.
  pose proof (delete_run c args info w id node d1 Hid Hsel) as Hrun.
  simpl in Hrun. fold flt in Hrun. rewrite Hdel in Hrun.
  split; intros Hn; rewrite Hrun.
  - destruct (Z.eqb_spec n 0); [lia | done].
  - by subst n.
Qed.

Lemma delete_returns_fetched_node_witness :
  delete (E := Mem.env) Mem.posts (Cases.args_where 1) []
    (Mem.world MoreCases.where_id_2 Cases.two_posts)
  = (Ok (PNode (Some [("id", VNum 2); ("title", VStr "c")])),
     Build_World Mem.env MoreCases.where_id_2 Cases.one_post
       [(SelectNest
           {| q_table := "app_post"; q_alias := "post"; q_columns := [];
              q_joins := []; q_limit := None; q_offset := None; q_order := [];
              q_where := [WhereCmp "post.id" "=" (VNum 2)] |}, Awaited);
        (Delete "app_post" (SObj [("id", VNum 2)]), Awaited)]).
Proof.
  exact (proj1 (delete_returns_fetched_node Mem.env Mem.posts
                  (Cases.args_where 1) []
                  (Mem.world MoreCases.where_id_2 Cases.two_posts)
                  (VNum 2) (Some [("id", VNum 2); ("title", VStr "c")])
                  Cases.two_posts Cases.one_post 1 eq_refl eq_refl eq_refl)
           ltac:(lia)).
Defined.

(** C2. The specification has delete answer "Node does not exist." when
    the filter matches no row.  The method tests the object [{ node }] that
    get returns, which is never falsy, and not the node in it: when the
    fetch finds nothing, delete still issues the delete statement, and
    whatever that statement does the answer is not the "Node does not
    exist." error. *)
Theorem delete_of_missing_node_proceeds (E : Env) (c : Crud) (args : Args)
    (info : ResolveInfo E) (w : World E) (id : value) (d1 : db E) :
  get_prop (where_ args) "id" w = (Ok id, w) →
  let q := get_query E c id (fields_get E "node" (parseFields E info)) in
  let flt := snapshot (w_heap w) (where_ args) in
  run_select_one E q (w_store w) = (inr None, d1) →
  (Delete (table_of c) flt, Awaited) ∈ w_issued (snd (delete c args info w)) ∧
  fst (delete c args info w) ≠
    Ok (PErrors (FieldErrors [("delete", "Node does not exist.")])).
Proof.
  intros Hid q flt Hsel.
  pose proof (delete_run c args info w id None d1 Hid Hsel) as Hrun.
  simpl in Hrun. fold q flt in Hrun. rewrite Hrun.
  destruct (run_delete E (table_of c) flt d1) as [[msg|n] d2]; simpl.
  - split; [set_solver | discriminate].
  - split; [set_solver |]. destruct (n =? 0)%Z; discriminate.
Qed.

Lemma delete_of_missing_node_proceeds_witness :
  (Delete "app_post" (SObj [("id", VNum 42)]), Awaited)
    ∈ w_issued (snd (delete (E := Mem.env) Mem.posts (Cases.args_where 1) []
                       (Mem.world Cases.where_id_42 Cases.one_post))) ∧
  fst (delete (E := Mem.env) Mem.posts (Cases.args_where 1) []
         (Mem.world Cases.where_id_42 Cases.one_post)) ≠
    Ok (PErrors (FieldErrors [("delete", "Node does not exist.")])).
Proof.
  exact (delete_of_missing_node_proceeds Mem.env Mem.posts (Cases.args_where 1) []
           (Mem.world Cases.where_id_42 Cases.one_post) (VNum 42) Cases.one_post
           eq_refl eq_refl).
Defined.

(** ** getPaginated and getList *)

(** C3, as amended.  When the list query and the count query are
    answered, getPaginated issues them as two statements, takes totalCount
    from the count query, and sets hasNextPage to true exactly when the
    list query returned an array whose length is the requested limit.
    When knexnest returns null there is no array of edges, and hasNextPage
    is null whatever the limit. *)
Theorem getPaginated_page (E : Env) (c : Crud) (args : ListArgs)
    (info : ResolveInfo E) (w : World E) (es : option (list (row E)))
    (d1 d2 : db E) (n : Z) :
  let q := list_query E c args (fields_get E "edges" (parseFields E info)) in
  run_select_list E q (w_store w) = (inr es, d1) →
  run_count E (table_of c) d1 = (inr n, d2) →
  ∃ page,
    getPaginated c args info w =
      (Ok page,
       Build_World E (w_heap w) d2
         (w_issued w ++ [(SelectNest q, Awaited);
                         (CountDistinct (table_of c), Awaited)])) ∧
    edges page = es ∧
    totalCount page = n ∧
    (hasNextPage page = VBool true ↔
     ∃ rows, es = Some rows ∧ limit args = VNum (Z.of_nat (length rows))) ∧
    (es = None → hasNextPage page = VNull).
Proof.
  intros q Hsel Hcount.
  unfold getPaginated, _getList, getTotal, await, bind, log, ret. simpl.
  fold q. rewrite Hsel. simpl. rewrite Hcount. simpl.
  eexists. split; [by rewrite <- app_assoc |]. simpl.
  split; [done |]. split; [done |].
  destruct es as [rows|]; simpl.
  - split; [| discriminate]. unfold strict_eq. split.
    + intros H. exists rows. split; [done |].
      injection H as H. apply bool_decide_eq_true in H. done.
    + intros (rows' & Hrows & Hlim). injection Hrows as <-.
      rewrite Hlim. by rewrite bool_decide_eq_true_2.
  - split; [| done].
    split; [discriminate |]. intros (rows & Hrows & _). discriminate.
Qed.

Lemma getPaginated_page_witness :
  ∃ page,
    fst (getPaginated (E := Mem.env) Mem.posts (Cases.no_order 2) []
           (Mem.world ∅ Cases.two_posts)) = Ok page ∧
    totalCount page = 2%Z ∧ hasNextPage page = VBool true.
Proof.
  destruct (getPaginated_page Mem.env Mem.posts (Cases.no_order 2) []
              (Mem.world ∅ Cases.two_posts) _ _ _ _ eq_refl eq_refl)
    as (page & Hrun & Hedges & Hcount & Hnext & _).
  exists page. rewrite Hrun. split; [done |]. split; [done |].
  apply Hnext. eexists. split; reflexivity.
Defined.

(** C3 as the specification states it fails: with limit 0 on an empty
    table the list query returns null, so the number of returned edges is
    the limit, and hasNextPage is null, not true. *)
Lemma getPaginated_null_edges_no_next_page :
  ¬ next_page_iff_full (E := Mem.env) Mem.posts (Cases.no_order 0) []
      (Mem.world ∅ []).
Proof.
  intros H.
  specialize (H _ _ eq_refl). simpl in H.
  destruct H as [_ H]. discriminate (H eq_refl).
Qed.



(** ** getByIds *)

Section GetByIds.

Context {E : Env}.

Lemma filter_bool_perm {A} (f : A → bool) (l l' : list A) :
  l ≡ₚ l' → List.filter f l ≡ₚ List.filter f l'.
Proof.
  induction 1 as [|x l l' _ IH|x y l|l l' l'' _ IH1 _ IH2]; simpl.
  - done.
  - destruct (f x); [by constructor | done].
  - destruct (f x), (f y); try done. apply perm_swap.
  - by etrans.
Qed.

Lemma orderedFor_length rows ids field :
  length (orderedFor (E := E) rows ids field) = length ids.
Proof. unfold orderedFor. by rewrite length_map. Qed.

Lemma orderedFor_slot rows ids field i id :
  ids !! i = Some id →
  orderedFor (E := E) rows ids field !! i =
    Some (List.filter (λ r, strict_eq (row_get E r field) id) (default [] rows)).
Proof. intros H. unfold orderedFor. by rewrite list_lookup_fmap, H. Qed.

Lemma orderedFor_perm rows rows' ids field :
  rows ≡ₚ rows' →
  Forall2 (≡ₚ) (orderedFor (E := E) (Some rows) ids field)
               (orderedFor (Some rows') ids field).
Proof.
  intros Hp. unfold orderedFor. induction ids as [|id ids IH]; simpl.
  - constructor.
  - constructor; [by apply filter_bool_perm | done].
Qed.

End GetByIds.

(** C6. Against orderedFor as the specification describes it: when the
    query is answered, getByIds returns one group per input id, in the
    order of the input ids; the group at the place of an id holds exactly
    the returned rows whose foreign-key field is that id; and returning the
    rows in another order changes no group's place, only the order inside
    the groups. *)
Theorem getByIds_follows_input_order (E : Env) (ids : list value) (by_ : string)
    (Obj : Crud) (info : ResolveInfo E) (w : World E)
    (res : option (list (row E))) (d : db E) :
  let q := ids_query E ids by_ Obj info in
  let fk := by_ +:+ "Id" in
  run_select_list E q (w_store w) = (inr res, d) →
  ∃ out w',
    getByIds ids by_ Obj info w = (Ok out, w') ∧
    length out = length ids ∧
    (∀ i id, ids !! i = Some id →
       ∃ group, out !! i = Some group ∧
                ∀ r, r ∈ group ↔ r ∈ default [] res ∧ row_get E r fk = id) ∧
    (∀ rows', default [] res ≡ₚ rows' →
       Forall2 (≡ₚ) out (orderedFor (Some rows') ids fk)).
Proof.
  intros q fk Hsel.
  unfold getByIds, await, bind, log, ret. simpl. fold q. rewrite Hsel. simpl.
  eexists _, _. split; [reflexivity |]. fold fk.
  split; [apply orderedFor_length |]. split.
  - intros i id Hi. eexists. split; [by apply orderedFor_slot |].
    intros r. rewrite !list_elem_of_In, filter_In. unfold strict_eq.
    by rewrite bool_decide_eq_true.
  - intros rows' Hp.
    destruct res as [rows|]; simpl in *.
    + by apply orderedFor_perm.
    + change (orderedFor None ids fk) with (orderedFor (E := E) (Some []) ids fk).
      by apply orderedFor_perm.
Qed.

Lemma getByIds_follows_input_order_witness :
  ∃ out,
    fst (getByIds (E := Mem.env) [VNum 1; VNum 2] "post" Mem.comments []
           (Mem.world ∅ Cases.three_comments)) = Ok out ∧
    out !! 0%nat = Some [[("id", VNum 2); ("content", VStr "y"); ("postId", VNum 1)]] ∧
    length out = 2%nat.
Proof.
  destruct (getByIds_follows_input_order Mem.env [VNum 1; VNum 2] "post"
              Mem.comments [] (Mem.world ∅ Cases.three_comments) _ _ eq_refl)
    as (out & w' & Hrun & Hlen & _).
  exists out. rewrite Hrun. split; [done |]. split; [| exact Hlen].
  by injection Hrun as <- _.
Defined.

(** ** What the mutations return *)

Section Answers.

Context {E : Env}.

Lemma get_by_id_node (c : Crud) id (info : ResolveInfo E) w p w' :
  get_by_id c id info w = (Ok p, w') → ∃ node, p = PNode node.
Proof.
  unfold get_by_id. intros H.
  apply bind_ok_inv in H as (node & w1 & _ & H).
  injection H as <- _. eauto.
Qed.

Lemma get_node (c : Crud) args (info : ResolveInfo E) w p w' :
  get c args info w = (Ok p, w') → ∃ node, p = PNode node.
Proof.
  unfold get. intros H.
  apply bind_ok_inv in H as (b & w1 & _ & H).
  apply bind_ok_inv in H as (node & w2 & _ & H).
  injection H as <- _. eauto.
Qed.

Lemma throwIf_set field message e (w : World E) :
  lift (FieldError.throwIf (FieldError.setError field message e)) w =
  (Throw (FieldErrors (e ++ [(field, message)])), w).
Proof.
  unfold lift, FieldError.throwIf, FieldError.setError.
  by destruct e.
Qed.

Lemma answers_catch (body : M E (payload (row E))) w :
  (∀ p w', body w = (Ok p, w') → p ≠ PUndefined) →
  answers_caller (fst (catch_errors body w)).
Proof.
  intros Hbody.
  destruct (catch_errors_total body w) as (p & w' & -> & [Hok | (e & _ & ->)]);
    simpl; [| done].
  specialize (Hbody _ _ Hok). by destruct p.
Qed.

Lemma create_answers c args ctx (info : ResolveInfo E) w :
  answers_caller (fst (create c args ctx info w)).
Proof.
  apply answers_catch. intros p w' H.
  apply bind_ok_inv in H as (? & ? & _ & H).
  apply bind_ok_inv in H as (? & ? & _ & H).
  apply bind_ok_inv in H as (? & ? & _ & H).
  apply bind_ok_inv in H as (? & ? & _ & H).
  apply get_by_id_node in H as [node ->]. discriminate.
Qed.

Lemma update_answers c args ctx (info : ResolveInfo E) w :
  answers_caller (fst (update c args ctx info w)).
Proof.
  apply answers_catch. intros p w' H.
  apply bind_ok_inv in H as (? & ? & _ & H).
  apply bind_ok_inv in H as (? & ? & _ & H).
  apply bind_ok_inv in H as (? & ? & _ & H).
  apply bind_ok_inv in H as (? & ? & _ & H).
  apply get_node in H as [node ->]. discriminate.
Qed.

Lemma delete_answers c args (info : ResolveInfo E) w :
  answers_caller (fst (delete c args info w)).
Proof.
  apply answers_catch. intros p w' H.
  apply bind_ok_inv in H as (node & w1 & Hget & H).
  apply get_node in Hget as [n ->]. simpl in H.
  apply bind_ok_inv in H as (e & w2 & _ & H).
  apply bind_ok_inv in H as (isDeleted & w3 & _ & H).
  destruct (isDeleted =? 0)%Z; simpl in H.
  - apply bind_ok_inv in H as (? & ? & H & _).
    rewrite throwIf_set in H. discriminate.
  - unfold ret in H. injection H as <- _. discriminate.
Qed.

Lemma sort_answers c args (w : World E) :
  answers_caller (fst (sort c args w)).
Proof.
  apply answers_catch. intros p w' H.
  apply bind_ok_inv in H as (? & ? & _ & H).
  apply bind_ok_inv in H as (r & w2 & _ & H).
  destruct r as [|affectedRows r]; [discriminate |].
  destruct (0 <? affectedRows)%Z.
  - unfold ret in H. injection H as <- _. discriminate.
  - apply bind_ok_inv in H as (? & ? & H & _).
    rewrite throwIf_set in H. discriminate.
Qed.

Lemma deleteMany_answers c args (w : World E) :
  answers_caller (fst (deleteMany c args w)).
Proof.
  apply answers_catch. intros p w' H.
  apply bind_ok_inv in H as (deleteCount & w2 & _ & H).
  destruct (0 <? deleteCount)%Z.
  - unfold ret in H. injection H as <- _. discriminate.
  - apply bind_ok_inv in H as (? & ? & H & _).
    rewrite throwIf_set in H. discriminate.
Qed.

End Answers.

(** C7. create, update, delete, sort and deleteMany answer every call, in
    every state, with their payload or with [{ errors }], and never reject.
    updateMany does not: it returns undefined, which is neither. *)
Theorem mutations_answer_except_updateMany (E : Env) (c : Crud) (args : Args)
    (ctx : gmap string Crud) (info : ResolveInfo E) (w : World E) :
  answers_caller (fst (create c args ctx info w)) ∧
  answers_caller (fst (update c args ctx info w)) ∧
  answers_caller (fst (delete c args info w)) ∧
  answers_caller (fst (sort c args w)) ∧
  answers_caller (fst (deleteMany c args w)) ∧
  ¬ answers_caller (fst (updateMany c args w)).
Proof.
  split; [apply create_answers |].
  split; [apply update_answers |].
  split; [apply delete_answers |].
  split; [apply sort_answers |].
  split; [apply deleteMany_answers |].
  simpl. tauto.
Qed.

(** ** Nested writes *)

Section Props.

Lemma eqb_false_ne (a b : string) : a ≠ b → String.eqb a b = false.
Proof. intros H. by apply String.eqb_neq. Qed.

Lemma prop_lookup_delete_ne (k k' : string) (o : props) :
  k ≠ k' → prop_lookup k' (prop_delete k o) = prop_lookup k' o.
Proof.
  intros Hne. induction o as [|[k0 v0] o IH]; simpl; [done |].
  destruct (String.eqb_spec k k0) as [<-|Hk].
  - rewrite IH. by rewrite (eqb_false_ne k' k).
  - simpl. by rewrite IH.
Qed.

Lemma prop_get_delete_ne (k k' : string) (o : props) :
  k ≠ k' → prop_get k' (prop_delete k o) = prop_get k' o.
Proof. intros H. unfold prop_get. by rewrite prop_lookup_delete_ne. Qed.

Lemma without_step (ks : list string) (k : string) (v : value) (o : props) :
  without ks ((k, v) :: o) =
  if bool_decide (k ∈ ks) then without ks o else (k, v) :: without ks o.
Proof. unfold without. cbn [List.filter fst]. by destruct (bool_decide (k ∈ ks)). Qed.

Lemma without_nil (o : props) : without [] o = o.
Proof.
  induction o as [|[k v] o IH]; [done |].
  rewrite without_step, bool_decide_eq_false_2 by set_solver. by rewrite IH.
Qed.

Lemma without_cons (k : string) (ks : list string) (o : props) :
  without (k :: ks) o = without ks (prop_delete k o).
Proof.
  induction o as [|[k0 v0] o IH]; [done |].
  rewrite without_step. cbn [prop_delete].
  destruct (String.eqb_spec k k0) as [<-|Hk].
  - rewrite bool_decide_eq_true_2 by set_solver. apply IH.
  - rewrite without_step, IH.
    destruct (decide (k0 ∈ ks)) as [Hin|Hin].
    + rewrite !bool_decide_eq_true_2 by set_solver. done.
    + rewrite !bool_decide_eq_false_2 by set_solver. done.
Qed.

Lemma prop_lookup_without_in (k : string) (ks : list string) (o : props) :
  k ∈ ks → prop_lookup k (without ks o) = None.
Proof.
  intros Hin. induction o as [|[k0 v0] o IH]; [done |].
  rewrite without_step.
  destruct (decide (k0 ∈ ks)) as [H0|H0].
  - rewrite bool_decide_eq_true_2 by done. apply IH.
  - rewrite bool_decide_eq_false_2 by done. cbn [prop_lookup].
    rewrite (eqb_false_ne k k0) by (intros ->; done). apply IH.
Qed.

Lemma prop_lookup_without_notin (k : string) (ks : list string) (o : props) :
  k ∉ ks → prop_lookup k (without ks o) = prop_lookup k o.
Proof.
  intros Hin. induction o as [|[k0 v0] o IH]; [done |].
  rewrite without_step. cbn [prop_lookup].
  destruct (decide (k0 ∈ ks)) as [H0|H0].
  - rewrite bool_decide_eq_true_2 by done.
    rewrite (eqb_false_ne k k0) by (intros ->; done). apply IH.
  - rewrite bool_decide_eq_false_2 by done. cbn [prop_lookup].
    by rewrite IH.
Qed.

Lemma flat_map_ext_in {A B} (f g : A → list B) (l : list A) :
  (∀ a, In a l → f a = g a) → List.flat_map f l = List.flat_map g l.
Proof.
  intros H. induction l as [|a l IH]; [done |]. simpl.
  rewrite H by (by left). rewrite IH; [done |]. intros a' Ha'. apply H. by right.
Qed.

End Props.

Section Extract.

Context {E : Env}.

Lemma nested_filter_delete (key : string) (o : props)
    (fields : list (string * FieldDesc)) :
  key ∉ map fst fields →
  List.filter (is_nested (prop_delete key o)) fields =
  List.filter (is_nested o) fields.
Proof.
  intros Hkey. apply filter_ext_in. intros [k d] Hin. unfold is_nested. simpl.
  rewrite prop_get_delete_ne; [done |].
  intros ->. apply Hkey. apply list_elem_of_In in Hin.
  by apply (list_elem_of_fmap_2 fst) in Hin.
Qed.

Lemma extract_nested_run (fields : list (string * FieldDesc)) (l : loc)
    (o : props) (acc : list (string * value)) (w : World E) :
  NoDup (map fst fields) →
  w_heap w !! l = Some (CObj o) →
  extract_nested fields (VRef l) acc w =
    (Ok (acc ++ map (λ k, (k, prop_get k o))
                    (map fst (List.filter (is_nested o) fields))),
     with_heap w
       (<[l := CObj (without (map fst (List.filter (is_nested o) fields)) o)]>
          (w_heap w))).
Proof.
  revert o acc w. induction fields as [|[key d] rest IH]; intros o acc w Hnd Hl.
  - simpl. unfold ret, with_heap. rewrite without_nil, app_nil_r.
    rewrite insert_id by done. by destruct w.
  - simpl in Hnd. apply NoDup_cons in Hnd as [Hkey Hnd].
    assert (Hf : List.filter (is_nested o) ((key, d) :: rest) =
                 if is_array_type (f_type d) && truthy (prop_get key o)
                 then (key, d) :: List.filter (is_nested o) rest
                 else List.filter (is_nested o) rest) by reflexivity.
    rewrite Hf. clear Hf. cbn [extract_nested].
    destruct (is_array_type (f_type d)) eqn:Harr; cbn [andb].
    + unfold bind at 1. cbn [get_prop]. unfold bind at 1, get_heap.
      rewrite Hl. cbn [cell_props]. unfold ret at 1.
      destruct (truthy (prop_get key o)) eqn:Htruthy.
      * unfold bind at 1. cbn [delete_prop]. unfold bind at 1, get_heap.
        rewrite Hl. cbn [cell_props cell_with_props]. unfold put_cell at 1.
        rewrite IH with (o := prop_delete key o); [| done | apply lookup_insert_eq].
        cbn [w_heap w_store w_issued]. unfold with_heap. cbn [w_heap w_store w_issued].
        rewrite insert_insert_eq, nested_filter_delete by done.
        cbn [map fst]. rewrite without_cons, <- app_assoc. cbn [app].
        do 4 f_equal. apply map_ext_in. intros k Hk.
        rewrite prop_get_delete_ne; [done |].
        intros ->. apply Hkey. apply in_map_iff in Hk as ([k' d'] & <- & Hk).
        apply filter_In in Hk as [Hk _]. apply list_elem_of_In in Hk.
        by apply (list_elem_of_fmap_2 fst) in Hk.
      * by apply IH.
    + by apply IH.
Qed.

End Extract.

Section Marking.

Context {E : Env}.

Lemma insert_as_alter (h : heap) (l : loc) (c : cell) (f : cell → cell) :
  h !! l = Some c → <[l := f c]> h = alter f l h.
Proof.
  intros Hl. apply map_eq. intros i.
  rewrite lookup_insert, lookup_alter.
  destruct (decide (l = i)) as [<-|]; [by rewrite Hl | done].
Qed.

Lemma mark_entries_cons fk id l locs (h : heap) :
  mark_entries fk id (l :: locs) h =
  mark_entries fk id locs (alter (with_foreign_key fk id) l h).
Proof. reflexivity. Qed.

Lemma mark_entries_app fk id locs locs' (h : heap) :
  mark_entries fk id (locs ++ locs') h =
  mark_entries fk id locs' (mark_entries fk id locs h).
Proof. unfold mark_entries. by rewrite foldl_app. Qed.

Lemma lookup_mark_notin fk id locs (h : heap) (l : loc) :
  l ∉ locs → mark_entries fk id locs h !! l = h !! l.
Proof.
  revert h. induction locs as [|l0 locs IH]; intros h Hl; [done |].
  rewrite mark_entries_cons, IH by set_solver.
  rewrite lookup_alter_ne; [done | set_solver].
Qed.

Lemma lookup_mark_in fk id locs (h : heap) (l : loc) :
  NoDup locs → l ∈ locs →
  mark_entries fk id locs h !! l = with_foreign_key fk id <$> h !! l.
Proof.
  revert h. induction locs as [|l0 locs IH]; intros h Hnd Hl; [set_solver |].
  apply NoDup_cons in Hnd as [Hl0 Hnd]. rewrite mark_entries_cons.
  destruct (decide (l = l0)) as [->|Hne].
  - rewrite lookup_mark_notin by done. by rewrite lookup_alter_eq.
  - rewrite IH by set_solver. by rewrite lookup_alter_ne.
Qed.

(** Receiving a foreign key changes neither the kind of a cell nor the
    elements of an array. *)
Lemma mark_keeps_array fk id locs (h : heap) (la : loc) es x :
  h !! la = Some (CArr es x) →
  ∃ x', mark_entries fk id locs h !! la = Some (CArr es x').
Proof.
  revert h x. induction locs as [|l0 locs IH]; intros h x Hla; [eauto |].
  rewrite mark_entries_cons.
  destruct (decide (l0 = la)) as [->|Hne].
  - apply (IH _ (prop_set fk id x)). by rewrite lookup_alter_eq, Hla.
  - apply (IH _ x). by rewrite lookup_alter_ne.
Qed.

Lemma obj_at_mark_notin fk id locs (h : heap) (v : value) :
  (∀ l, v = VRef l → l ∉ locs) →
  obj_at (mark_entries fk id locs h) v = obj_at h v.
Proof.
  intros Hv. destruct v; try done. simpl. rewrite lookup_mark_notin; [done | eauto].
Qed.

End Marking.

Section Children.

Context {E : Env}.

Lemma keeps_heap_ret {A} (a : A) : keeps_heap (E := E) (ret a).
Proof. by intros w. Qed.

Lemma keeps_heap_throw {A} e : keeps_heap (E := E) (throw (A := A) e).
Proof. by intros w. Qed.

Lemma keeps_heap_bind {A B} (m : M E A) (k : A → M E B) :
  keeps_heap (E := E) m →
  (∀ a, keeps_heap (E := E) (k a)) →
  keeps_heap (E := E) (bind m k).
Proof.
  intros Hm Hk w. unfold bind. specialize (Hm w).
  destruct (m w) as [[a|e] w1]; simpl in *; [| done].
  by rewrite Hk.
Qed.

Lemma keeps_heap_detach {A} (m : M E A) :
  keeps_heap (E := E) m → keeps_heap (E := E) (detach m).
Proof. intros Hm w. unfold detach. specialize (Hm w). by destruct (m w). Qed.

Lemma keeps_heap_get_prop v k : keeps_heap (E := E) (get_prop v k).
Proof. intros w. by rewrite get_prop_pure. Qed.

Lemma keeps_heap_log s m : keeps_heap (E := E) (log s m).
Proof. by intros w. Qed.

Lemma keeps_heap_await {A} (b : Builder E A) : keeps_heap (E := E) (await b).
Proof. intros w. apply await_issued. Qed.

Lemma keeps_heap_sibling ctx key : keeps_heap (E := E) (sibling ctx key).
Proof. intros w. unfold sibling. by destruct (ctx !! pascalize E key). Qed.

Lemma keeps_heap_for_each {A} (f : A → M E unit) (l : list A) :
  (∀ x, keeps_heap (E := E) (f x)) → keeps_heap (E := E) (for_each f l).
Proof.
  intros Hf. induction l as [|x l IH]; [by intros w |].
  apply keeps_heap_bind; [apply Hf | by intros _].
Qed.

Lemma keeps_heap_update_child ctx key v :
  keeps_heap (E := E) (update_child ctx key v).
Proof.
  apply keeps_heap_detach.
  apply keeps_heap_bind; [apply keeps_heap_sibling | intros child].
  apply keeps_heap_bind; [apply keeps_heap_get_prop | intros d].
  apply keeps_heap_bind; [apply keeps_heap_get_prop | intros wh].
  apply keeps_heap_bind; [| intros b; apply keeps_heap_log].
  by intros w.
Qed.

Lemma keeps_heap_delete_child ctx key v :
  keeps_heap (E := E) (delete_child ctx key v).
Proof.
  apply keeps_heap_detach.
  apply keeps_heap_bind; [apply keeps_heap_sibling | intros child].
  apply keeps_heap_bind; [| intros b; apply keeps_heap_log].
  by intros w.
Qed.

Lemma keeps_heap_get c args (info : ResolveInfo E) :
  keeps_heap (E := E) (get c args info).
Proof.
  apply keeps_heap_bind.
  - apply keeps_heap_bind; [apply keeps_heap_get_prop | by intros id w].
  - intros b. apply keeps_heap_bind; [apply keeps_heap_await | by intros node w].
Qed.

Lemma keeps_heap_get_by_id c id (info : ResolveInfo E) :
  keeps_heap (E := E) (get_by_id c id info).
Proof. apply keeps_heap_bind; [apply keeps_heap_await | by intros node w]. Qed.

(** Detached callbacks always hand control back to [map]. *)
Lemma for_each_detached {A} (f : A → M E unit) (l : list A) w :
  (∀ x w, fst (f x w) = Ok tt) → fst (for_each f l w) = Ok tt.
Proof.
  intros Hf. revert w. induction l as [|x l IH]; intros w; [done |].
  simpl. unfold bind. specialize (Hf x w).
  destruct (f x w) as [[[]|e] w1]; simpl in *; [apply IH | done].
Qed.

Lemma detach_ok {A} (m : M E A) w : fst (detach m w) = Ok tt.
Proof. unfold detach. by destruct (m w). Qed.

Lemma get_prop_ref (l : loc) (k : string) (c : cell) (w : World E) :
  w_heap w !! l = Some c →
  get_prop (VRef l) k w = (Ok (prop_get k (cell_props c)), w).
Proof. intros H. cbn [get_prop]. unfold bind, get_heap. by rewrite H. Qed.

Lemma set_prop_ref (l : loc) (k : string) (x : value) (c : cell) (w : World E) :
  w_heap w !! l = Some c →
  set_prop (VRef l) k x w =
    (Ok tt, with_heap w (alter (λ c, cell_with_props c (prop_set k x (cell_props c)))
                               l (w_heap w))).
Proof.
  intros H. cbn [set_prop]. unfold bind, get_heap. rewrite H.
  unfold put_cell, with_heap.
  by rewrite (insert_as_alter _ _ _
                (λ c, cell_with_props c (prop_set k x (cell_props c))) H).
Qed.

Lemma array_elems_ref (l : loc) es x (w : World E) :
  w_heap w !! l = Some (CArr es x) → array_elems (VRef l) w = (Ok es, w).
Proof. intros H. cbn [array_elems]. unfold bind, get_heap. by rewrite H. Qed.

Lemma sibling_ok (ctx : gmap string Crud) (key : string) (child : Crud) (w : World E) :
  ctx !! pascalize E key = Some child → sibling ctx key w = (Ok child, w).
Proof. intros H. unfold sibling. by rewrite H. Qed.

Lemma _create_run (c : Crud) (v : value) (w : World E) :
  _create c v w =
    (Ok {| b_stmt := Insert (table_of c) (snapshot (w_heap w) v);
           b_run := run_insert E (table_of c) (snapshot (w_heap w) v) |}, w).
Proof. reflexivity. Qed.

Lemma _update_run (c : Crud) (d wh : value) (w : World E) :
  _update c d wh w =
    (Ok {| b_stmt := Update (table_of c) (snapshot (w_heap w) d)
                       (snapshot (w_heap w) wh);
           b_run := run_update E (table_of c) (snapshot (w_heap w) d)
                      (snapshot (w_heap w) wh) |}, w).
Proof. reflexivity. Qed.

(** The callback of a create list on one entry. *)
Lemma create_child_run (c : Crud) (ctx : gmap string Crud) (parent : M E value)
    (key : string) (child : Crud) (id : value) (le : loc) (oe : props) (w : World E) :
  parent w = (Ok id, w) →
  w_heap w !! le = Some (CObj oe) →
  ctx !! pascalize E key = Some child →
  create_child c ctx parent key (VRef le) w =
    (Ok tt,
     Build_World E (alter (with_foreign_key (foreign_key E c) id) le (w_heap w))
       (w_store w)
       (w_issued w ++
        [(Insert (table_of child) (SObj (prop_set (foreign_key E c) id oe)),
          Detached)])).
Proof.
  intros Hparent Hle Hctx.
  unfold create_child, detach.
  rewrite (bind_ok _ _ _ _ _ Hparent).
  rewrite (bind_ok _ _ _ _ _ (set_prop_ref _ _ _ _ _ Hle)).
  rewrite (bind_ok _ _ _ _ _ (sibling_ok _ _ _ _ Hctx)).
  rewrite (bind_ok _ _ _ _ _ (_create_run _ _ _)).
  unfold hand_over, log, with_heap.
  cbn [w_heap w_store w_issued b_stmt snapshot].
  rewrite lookup_alter_eq, Hle. reflexivity.
Qed.

End Children.

Section Collections.

Context {E : Env}.

Lemma omap_as_loc_cons (l : loc) (es : list value) :
  omap as_loc (VRef l :: es) = l :: omap as_loc es.
Proof. reflexivity. Qed.

Lemma elem_of_omap_as_loc (l : loc) (es : list value) :
  VRef l ∈ es → l ∈ omap as_loc es.
Proof. intros H. apply list_elem_of_omap. by exists (VRef l). Qed.

(** The callbacks of one create list: every entry receives the foreign
    key, and one insert per entry is handed over, in the order of the
    list. *)
Lemma create_entries_run (c : Crud) (ctx : gmap string Crud) (parent : M E value)
    (key : string) (child : Crud) (id : value) (es : list value) (w : World E) :
  ctx !! pascalize E key = Some child →
  (∀ e, e ∈ es → ∃ le oe, e = VRef le ∧ w_heap w !! le = Some (CObj oe)) →
  NoDup (omap as_loc es) →
  (∀ w', (∀ l', l' ∉ omap as_loc es → w_heap w' !! l' = w_heap w !! l') →
         parent w' = (Ok id, w')) →
  for_each (create_child c ctx parent key) es w =
    (Ok tt,
     Build_World E
       (mark_entries (foreign_key E c) id (omap as_loc es) (w_heap w))
       (w_store w)
       (w_issued w ++
        map (λ e, (Insert (table_of child)
                          (SObj (prop_set (foreign_key E c) id (obj_at (w_heap w) e))),
                   Detached)) es)).
Proof.
  intros Hctx. revert w.
  induction es as [|e es IH]; intros w Hes Hnd Hparent.
  - simpl. unfold ret. rewrite app_nil_r. by destruct w.
  - destruct (Hes e) as (le & oe & -> & Hle); [set_solver |].
    rewrite omap_as_loc_cons in *. apply NoDup_cons in Hnd as [Hfresh Hnd].
    cbn [for_each].
    rewrite (bind_ok _ _ _ _ _
               (create_child_run c ctx parent key child id le oe w
                  (Hparent w (λ _ _, eq_refl)) Hle Hctx)).
    rewrite IH; cbn [w_heap w_store w_issued].
    + rewrite mark_entries_cons, <- app_assoc. cbn [map app obj_at].
      rewrite Hle. cbn [from_option cell_props].
      do 4 f_equal. apply map_ext_in. intros e He.
      apply list_elem_of_In in He.
      destruct (Hes e) as (le' & oe' & -> & Hle'); [set_solver |].
      cbn [obj_at]. rewrite lookup_alter_ne; [done |].
      intros ->. by apply Hfresh, elem_of_omap_as_loc.
    + intros e He. destruct (Hes e) as (le' & oe' & -> & Hle'); [set_solver |].
      exists le', oe'. split; [done |]. rewrite lookup_alter_ne; [done |].
      intros ->. by apply Hfresh, elem_of_omap_as_loc.
    + done.
    + intros w' Hw'. apply Hparent. intros l' Hl'.
      rewrite Hw' by set_solver. apply lookup_alter_ne. set_solver.
Qed.

(** [if (nested.data[name]) { nested.data[name].map(callback); }] on a
    collection whose sub-list is missing or an array. *)
Lemma map_nested_run (key : string) (lk : loc) (ok : props) (name : string)
    (callback : string → value → M E unit) (w : World E) :
  w_heap w !! lk = Some (CObj ok) →
  (truthy (prop_get name ok) = false ∨
   ∃ la es x, prop_get name ok = VRef la ∧ w_heap w !! la = Some (CArr es x)) →
  map_nested (key, VRef lk) name callback w =
    for_each (callback key) (list_at (w_heap w) (prop_get name ok)) w.
Proof.
  intros Hlk Hlist. unfold map_nested. cbn [fst snd].
  rewrite (bind_ok _ _ _ _ _ (get_prop_ref _ _ _ _ Hlk)). cbn [cell_props].
  destruct Hlist as [Hfalsy | (la & es & x & Hla & Hes)].
  - rewrite Hfalsy. by destruct (prop_get name ok).
  - rewrite Hla. cbn [truthy list_at]. rewrite Hes.
    by rewrite (bind_ok _ _ _ _ _ (array_elems_ref _ _ _ _ Hes)).
Qed.

End Collections.

Section Frames.

Context {E : Env}.

Lemma nested_locs_cons o k ks lk :
  prop_get k o = VRef lk → nested_locs o (k :: ks) = lk :: nested_locs o ks.
Proof. intros H. unfold nested_locs. cbn [omap list_omap]. by rewrite H. Qed.

Lemma entry_locs_cons h o k ks :
  entry_locs h o (k :: ks) = omap as_loc (entries_of "create" h o k) ++ entry_locs h o ks.
Proof. reflexivity. Qed.

Lemma elem_of_nested_locs o keys k lk :
  k ∈ keys → prop_get k o = VRef lk → lk ∈ nested_locs o keys.
Proof.
  intros Hk Hlk. apply list_elem_of_omap. exists k. by rewrite Hlk.
Qed.

Lemma elem_of_entry_locs h o keys k le :
  k ∈ keys → VRef le ∈ entries_of "create" h o k → le ∈ entry_locs h o keys.
Proof.
  intros Hk He. unfold entry_locs. apply list_elem_of_In, in_flat_map.
  exists k. split; [by apply list_elem_of_In |].
  by apply list_elem_of_In, elem_of_omap_as_loc.
Qed.

Lemma agrees_list_at locs h h' v :
  agrees locs h h' →
  (truthy v = false ∨ ∃ la es x, v = VRef la ∧ h !! la = Some (CArr es x)) →
  list_at h' v = list_at h v.
Proof.
  intros Hag [Hfalsy | (la & es & x & -> & Hla)].
  - by destruct v.
  - simpl. destruct (ag_arrays _ _ _ Hag _ _ _ Hla) as [x' Hla']. by rewrite Hla, Hla'.
Qed.

Lemma agrees_entries_of names h h' o keys k name :
  collections names h o keys →
  agrees (nested_locs o keys ++ entry_locs h o keys) h h' →
  k ∈ keys → name ∈ names →
  entries_of name h' o k = entries_of name h o k ∧
  prop_get name (obj_at h' (prop_get k o)) = prop_get name (obj_at h (prop_get k o)).
Proof.
  intros Hco Hag Hk Hname.
  destruct (co_nested _ _ _ _ Hco k Hk) as (lk & ok & Hlk & Hok).
  assert (Hobj : obj_at h' (prop_get k o) = obj_at h (prop_get k o)).
  { rewrite Hlk. simpl. rewrite (ag_same _ _ _ Hag); [done |].
    apply elem_of_app. left. by eapply elem_of_nested_locs. }
  split; [| by rewrite Hobj].
  unfold entries_of. rewrite Hobj.
  eapply agrees_list_at; [done |]. by apply (co_lists _ _ _ _ Hco).
Qed.

End Frames.

Section Phases.

Context {E : Env}.

Lemma collections_tail names h o k ks :
  collections names h o (k :: ks) → collections names h o ks.
Proof.
  intros Hco. split.
  - intros k' Hk'. apply (co_nested _ _ _ _ Hco). set_solver.
  - intros k' name Hk'. apply (co_lists _ _ _ _ Hco). set_solver.
  - intros k' e Hk'. apply (co_entries _ _ _ _ Hco). set_solver.
  - pose proof (co_apart _ _ _ _ Hco) as Hnd.
    destruct (co_nested _ _ _ _ Hco k) as (lk & ok & Hlk & _); [set_solver |].
    rewrite (nested_locs_cons _ _ _ _ Hlk), entry_locs_cons in Hnd.
    cbn [app] in Hnd. apply NoDup_cons in Hnd as [_ Hnd].
    apply NoDup_app in Hnd as (Hn & Hdisj & He).
    apply NoDup_app in He as (_ & _ & He).
    apply NoDup_app. split; [done |]. split; [| done].
    intros l Hl. specialize (Hdisj l Hl). set_solver.
Qed.

Lemma collections_agrees names h h' o keys :
  "create" ∈ names →
  collections names h o keys →
  agrees (nested_locs o keys ++ entry_locs h o keys) h h' →
  collections names h' o keys ∧
  entry_locs h' o keys = entry_locs h o keys ∧
  (∀ c children id, child_creates E c children h' o id keys =
                    child_creates E c children h o id keys).
Proof.
  intros Hcreate Hco Hag.
  assert (Hent : ∀ k name, k ∈ keys → name ∈ names →
            entries_of name h' o k = entries_of name h o k).
  { intros k name Hk Hname. by eapply agrees_entries_of. }
  assert (Hlocs : entry_locs h' o keys = entry_locs h o keys).
  { unfold entry_locs. apply flat_map_ext_in. intros k Hk.
    apply list_elem_of_In in Hk. by rewrite Hent. }
  split; [split |].
  - intros k Hk. destruct (co_nested _ _ _ _ Hco k Hk) as (lk & ok & Hlk & Hok).
    exists lk, ok. split; [done |]. rewrite (ag_same _ _ _ Hag); [done |].
    apply elem_of_app. left. by eapply elem_of_nested_locs.
  - intros k name Hk Hname.
    destruct (agrees_entries_of _ _ _ _ _ _ _ Hco Hag Hk Hname) as [_ ->].
    destruct (co_lists _ _ _ _ Hco k name Hk Hname)
      as [Hfalsy | (la & es & x & Hla & Hes)]; [by left | right].
    destruct (ag_arrays _ _ _ Hag _ _ _ Hes) as [x' Hes']. eauto 6.
  - intros k e Hk He. rewrite Hent in He by done.
    destruct (co_entries _ _ _ _ Hco k e Hk He) as (le & oe & -> & Hle).
    exists le, oe. split; [done |]. rewrite (ag_same _ _ _ Hag); [done |].
    apply elem_of_app. right. by eapply elem_of_entry_locs.
  - rewrite Hlocs. apply (co_apart _ _ _ _ Hco).
  - split; [done |]. intros c children id. unfold child_creates.
    apply flat_map_ext_in. intros k Hk. apply list_elem_of_In in Hk.
    rewrite Hent by done. apply map_ext_in. intros e He.
    apply list_elem_of_In in He.
    destruct (co_entries _ _ _ _ Hco k e Hk He) as (le & oe & -> & Hle).
    simpl. rewrite (ag_same _ _ _ Hag); [done |].
    apply elem_of_app. right. by eapply elem_of_entry_locs.
Qed.

End Phases.

Section Nested.

Context {E : Env}.

Lemma agrees_subset locs locs' (h h' : heap) :
  agrees locs h h' → (∀ l, l ∈ locs' → l ∈ locs) → agrees locs' h h'.
Proof.
  intros Hag Hsub. split.
  - intros l Hl. apply (ag_same _ _ _ Hag). by apply Hsub.
  - apply (ag_arrays _ _ _ Hag).
Qed.

Lemma nested_locs_tail o k ks (l : loc) :
  l ∈ nested_locs o ks → l ∈ nested_locs o (k :: ks).
Proof.
  unfold nested_locs. rewrite !list_elem_of_omap.
  intros (k' & Hk' & Hl). exists k'. split; [by right | done].
Qed.

Lemma entries_of_ref name (h : heap) o k lk ok :
  prop_get k o = VRef lk → h !! lk = Some (CObj ok) →
  entries_of name h o k = list_at h (prop_get name ok).
Proof. intros Hlk Hok. unfold entries_of. rewrite Hlk. simpl. by rewrite Hok. Qed.

(** The create list of the first collection. *)
Lemma create_collection_step (c : Crud) (ctx : gmap string Crud)
    (parent : M E value) (children : string → Crud) (id : value)
    (names : list string) (o : props) (k : string) (ks : list string) (w : World E) :
  "create" ∈ names →
  collections names (w_heap w) o (k :: ks) →
  ctx !! pascalize E k = Some (children k) →
  (∀ w', (∀ l', l' ∉ entry_locs (w_heap w) o (k :: ks) →
                w_heap w' !! l' = w_heap w !! l') →
         parent w' = (Ok id, w')) →
  let es := entries_of "create" (w_heap w) o k in
  let h1 := mark_entries (foreign_key E c) id (omap as_loc es) (w_heap w) in
  map_nested (k, prop_get k o) "create" (create_child c ctx parent) w =
    (Ok tt,
     Build_World E h1 (w_store w)
       (w_issued w ++
        map (λ e, (Insert (table_of (children k))
                          (SObj (prop_set (foreign_key E c) id (obj_at (w_heap w) e))),
                   Detached)) es)) ∧
  agrees (nested_locs o (k :: ks) ++ entry_locs (w_heap w) o ks) (w_heap w) h1.
Proof.
  intros Hcreate Hco Hctx Hparent es h1.
  destruct (co_nested _ _ _ _ Hco k) as (lk & ok & Hlk & Hok); [set_solver |].
  pose proof (co_apart _ _ _ _ Hco) as Hnd.
  rewrite entry_locs_cons in Hnd. fold es in Hnd.
  assert (Hes : es = list_at (w_heap w) (prop_get "create" ok)).
  { by apply entries_of_ref with lk. }
  split.
  - rewrite Hlk.
    rewrite (map_nested_run k lk ok "create" _ w Hok).
    + rewrite <- Hes.
      apply create_entries_run; [done | | |].
      * intros e He. apply (co_entries _ _ _ _ Hco k); [set_solver | done].
      * apply NoDup_app in Hnd as (_ & _ & Hnd).
        by apply NoDup_app in Hnd as (Hnd & _ & _).
      * intros w' Hw'. apply Hparent. intros l' Hl'. apply Hw'.
        rewrite entry_locs_cons in Hl'. fold es in Hl'. set_solver.
    + destruct (co_lists _ _ _ _ Hco k "create") as [Hf | Ha];
        [set_solver | done | |]; rewrite Hlk in *; simpl in *; rewrite Hok in *;
        simpl in *; [by left | by right].
  - split.
    + intros l Hl. apply lookup_mark_notin. intros Hin.
      apply NoDup_app in Hnd as (Hn & Hdisj & He).
      apply NoDup_app in He as (_ & Hdisj' & _).
      apply elem_of_app in Hl as [Hl | Hl].
      * apply (Hdisj l Hl). set_solver.
      * by apply (Hdisj' l Hin).
    + intros la es' x Hla. by apply mark_keeps_array with x.
Qed.

(** The second loop of [create]: the create lists of all collections. *)
Lemma create_nested_run (c : Crud) (ctx : gmap string Crud)
    (parent : M E value) (children : string → Crud) (id : value)
    (names : list string) (o : props) (keys : list string) (w : World E) :
  "create" ∈ names →
  collections names (w_heap w) o keys →
  (∀ k, k ∈ keys → ctx !! pascalize E k = Some (children k)) →
  (∀ w', (∀ l', l' ∉ entry_locs (w_heap w) o keys →
                w_heap w' !! l' = w_heap w !! l') →
         parent w' = (Ok id, w')) →
  for_each (λ nested, map_nested nested "create" (create_child c ctx parent))
           (map (λ k, (k, prop_get k o)) keys) w =
    (Ok tt,
     Build_World E
       (mark_entries (foreign_key E c) id (entry_locs (w_heap w) o keys) (w_heap w))
       (w_store w)
       (w_issued w ++ child_creates E c children (w_heap w) o id keys)).
Proof.
  intros Hcreate. revert w.
  induction keys as [|k ks IH]; intros w Hco Hctx Hparent.
  - simpl. unfold ret. rewrite app_nil_r. by destruct w.
  - destruct (create_collection_step c ctx parent children id names o k ks w)
      as [Hrun Hag]; [done | done | apply Hctx; set_solver | done |].
    cbn [map for_each]. rewrite (bind_ok _ _ _ _ _ Hrun). clear Hrun.
    assert (Hag' : agrees (nested_locs o ks ++ entry_locs (w_heap w) o ks)
                     (w_heap w)
                     (mark_entries (foreign_key E c) id
                        (omap as_loc (entries_of "create" (w_heap w) o k))
                        (w_heap w))).
    { apply (agrees_subset _ _ _ _ Hag). intros l Hl.
      apply elem_of_app in Hl as [Hl | Hl]; apply elem_of_app; [left | by right].
      by apply nested_locs_tail. }
    destruct (collections_agrees (E := E) names _ _ o ks Hcreate
                (collections_tail _ _ _ _ _ Hco) Hag')
      as (Hco1 & Hlocs1 & Hlog1).
    rewrite IH; cbn [w_heap w_store w_issued].
    + rewrite Hlocs1, Hlog1, entry_locs_cons, mark_entries_app, <- app_assoc.
      reflexivity.
    + done.
    + intros k' Hk'. apply Hctx. set_solver.
    + intros w' Hw'. apply Hparent. intros l' Hl'.
      rewrite entry_locs_cons in Hl'.
      rewrite Hw' by (rewrite Hlocs1; set_solver).
      apply lookup_mark_notin. set_solver.
Qed.

End Nested.

Section UpdatePhase.

Context {E : Env}.

(** A sub-list whose callbacks are detached and leave the heap alone. *)
Lemma map_nested_detached (key : string) (lk : loc) (ok : props) (name : string)
    (callback : string → value → M E unit) (w : World E) :
  w_heap w !! lk = Some (CObj ok) →
  (truthy (prop_get name ok) = false ∨
   ∃ la es x, prop_get name ok = VRef la ∧ w_heap w !! la = Some (CArr es x)) →
  (∀ x, keeps_heap (E := E) (callback key x)) →
  (∀ x w, fst (callback key x w) = Ok tt) →
  ∃ w', map_nested (key, VRef lk) name callback w = (Ok tt, w') ∧
        w_heap w' = w_heap w.
Proof.
  intros Hlk Hlist Hkeep Hok.
  rewrite (map_nested_run key lk ok name callback w Hlk Hlist).
  pose proof (for_each_detached (callback key)
                (list_at (w_heap w) (prop_get name ok)) w (Hok)) as Hfst.
  pose proof (keeps_heap_for_each (callback key)
                (list_at (w_heap w) (prop_get name ok)) Hkeep w) as Hheap.
  destruct (for_each _ _ w) as [r w']. simpl in *. subst r. eauto.
Qed.

(** The second loop of [update], as far as the caller's heap goes. *)
Lemma update_nested_run (c : Crud) (ctx : gmap string Crud)
    (parent : M E value) (children : string → Crud) (id : value)
    (o : props) (keys : list string) (w : World E) :
  collections update_names (w_heap w) o keys →
  (∀ k, k ∈ keys → ctx !! pascalize E k = Some (children k)) →
  (∀ w', (∀ l', l' ∉ entry_locs (w_heap w) o keys →
                w_heap w' !! l' = w_heap w !! l') →
         parent w' = (Ok id, w')) →
  ∃ w',
    for_each (λ nested,
                map_nested nested "create" (create_child c ctx parent) ;;
                map_nested nested "update" (update_child ctx) ;;
                map_nested nested "delete" (delete_child ctx))
             (map (λ k, (k, prop_get k o)) keys) w = (Ok tt, w') ∧
    w_heap w' =
      mark_entries (foreign_key E c) id (entry_locs (w_heap w) o keys) (w_heap w).
Proof.
  assert (Hcreate : "create" ∈ update_names) by (unfold update_names; set_solver).
  revert w. induction keys as [|k ks IH]; intros w Hco Hctx Hparent.
  - exists w. by split.
  - destruct (create_collection_step c ctx parent children id update_names o k ks w)
      as [Hrun Hag]; [done | done | apply Hctx; set_solver | done |].
    destruct (co_nested _ _ _ _ Hco k) as (lk & ok & Hlk & Hok); [set_solver |].
    set (h1 := mark_entries (foreign_key E c) id
                 (omap as_loc (entries_of "create" (w_heap w) o k)) (w_heap w)) in *.
    assert (Hok1 : h1 !! lk = Some (CObj ok)).
    { rewrite (ag_same _ _ _ Hag); [done |].
      apply elem_of_app. left. eapply elem_of_nested_locs; [| done]. set_solver. }
    assert (Hlists : ∀ h2 name, name ∈ update_names → h2 = h1 →
              truthy (prop_get name ok) = false ∨
              ∃ la es x, prop_get name ok = VRef la ∧ h2 !! la = Some (CArr es x)).
    { intros h2 name Hname ->.
      destruct (co_lists _ _ _ _ Hco k name) as [Hf | (la & es & x & Hla & Hes)];
        [set_solver | done | |]; rewrite Hlk in *; simpl in *; rewrite Hok in *;
        simpl in *; [by left | right].
      destruct (ag_arrays _ _ _ Hag _ _ _ Hes) as [x' Hes']. eauto 6. }
    cbn [map for_each].
    unfold bind at 1. unfold bind at 1. rewrite Hrun. clear Hrun.
    rewrite Hlk.
    match goal with |- context [Build_World E h1 ?d ?i] =>
      set (w1 := Build_World E h1 d i) end.
    destruct (map_nested_detached k lk ok "update" (update_child ctx) w1)
      as (w2 & Hrun2 & Hheap2);
      [done | apply Hlists; [unfold update_names; set_solver | done]
      | intros x; apply keeps_heap_update_child
      | intros x w0; apply detach_ok |].
    unfold bind at 1. rewrite Hrun2.
    destruct (map_nested_detached k lk ok "delete" (delete_child ctx) w2)
      as (w3 & Hrun3 & Hheap3);
      [by rewrite Hheap2
      | apply Hlists; [unfold update_names; set_solver | by rewrite Hheap2]
      | intros x; apply keeps_heap_delete_child
      | intros x w0; apply detach_ok |].
    rewrite Hrun3.
    assert (Hh3 : w_heap w3 = h1) by (by rewrite Hheap3, Hheap2).
    assert (Hag' : agrees (nested_locs o ks ++ entry_locs (w_heap w) o ks)
                     (w_heap w) h1).
    { apply (agrees_subset _ _ _ _ Hag). intros l Hl.
      apply elem_of_app in Hl as [Hl | Hl]; apply elem_of_app; [left | by right].
      by apply nested_locs_tail. }
    destruct (collections_agrees (E := E) update_names _ _ o ks Hcreate
                (collections_tail _ _ _ _ _ Hco) Hag')
      as (Hco1 & Hlocs1 & _).
    destruct (IH w3) as (w' & Hrun' & Hheap').
    + by rewrite Hh3.
    + intros k' Hk'. apply Hctx. set_solver.
    + intros w' Hw'. apply Hparent. intros l' Hl'.
      rewrite entry_locs_cons in Hl'.
      rewrite Hw' by (rewrite Hh3, Hlocs1; set_solver).
      rewrite Hh3. apply lookup_mark_notin. set_solver.
    + exists w'. split; [done |].
      rewrite Hheap', Hh3, Hlocs1, entry_locs_cons, mark_entries_app. done.
Qed.

End UpdatePhase.

Section Runs.

Context {E : Env}.

Lemma guarded_for_each {A} (f : A → M E unit) (l : list A) (w : World E) :
  (if (0 <? length l)%nat then for_each f l else ret tt) w = for_each f l w.
Proof. by destruct l. Qed.

(** Stripping the payload leaves its nested collections as they were. *)
Lemma stripped_agrees names (h : heap) (l : loc) (o o' : props) keys :
  tree_payload names h l o keys →
  agrees (nested_locs o keys ++ entry_locs h o keys) h (<[l := CObj o']> h).
Proof.
  intros Htree. split.
  - intros l' Hl'. apply lookup_insert_ne. intros <-.
    by apply (tp_apart _ _ _ _ _ Htree).
  - intros la es x Hla. exists x. rewrite lookup_insert_ne; [done |].
    intros <-. rewrite (tp_root _ _ _ _ _ Htree) in Hla. discriminate.
Qed.

(** A whole run of [create] on a tree-shaped payload whose base insert is
    answered. *)
Lemma create_run (c : Crud) (args : Args) (ctx : gmap string Crud)
    (info : ResolveInfo E) (children : string → Crud) (w : World E)
    (l : loc) (o : props) (ids : list value) (d1 : db E) :
  let keys := nested_keys (schema c) o in
  let id := hd VUndefined ids in
  data args = VRef l →
  tree_payload create_names (w_heap w) l o keys →
  NoDup (map fst (s_fields (schema c))) →
  (∀ k, k ∈ keys → ctx !! pascalize E k = Some (children k)) →
  run_insert E (table_of c) (SObj (without keys o)) (w_store w) = (inr ids, d1) →
  ∃ p d2,
    create c args ctx info w =
      (Ok p,
       Build_World E
         (mark_entries (foreign_key E c) id (entry_locs (w_heap w) o keys)
            (<[l := CObj (without keys o)]> (w_heap w)))
         d2
         (w_issued w ++
          [(Insert (table_of c) (SObj (without keys o)), Awaited)] ++
          child_creates E c children (w_heap w) o id keys ++
          [(SelectNest (get_query E c id (fields_get E "node" (parseFields E info))),
            Awaited)])).
Proof.
  intros keys id Hdata Htree Hnd Hctx Hins.
  pose proof (tp_root _ _ _ _ _ Htree) as Hroot.
  set (h1 := <[l := CObj (without keys o)]> (w_heap w)).
  assert (Hcreate : "create" ∈ create_names) by (unfold create_names; set_solver).
  destruct (collections_agrees (E := E) create_names _ h1 o keys Hcreate
              (tp_collections _ _ _ _ _ Htree)
              (stripped_agrees _ _ _ _ _ _ Htree))
    as (Hco1 & Hlocs1 & Hlog1).
  unfold create, catch_errors, try_catch.
  rewrite (bind_ok _ _ w tt w) by reflexivity.
  rewrite Hdata.
  rewrite (bind_ok _ _ _ _ _ (extract_nested_run _ l o [] w Hnd Hroot)).
  fold (nested_keys (schema c) o). fold keys. unfold with_heap. fold h1.
  cbn [app].
  erewrite (bind_ok _ _ (Build_World E h1 (w_store w) (w_issued w))).
  2:{ rewrite (bind_ok _ _ _ _ _ (_create_run _ _ _)).
      cbn [w_heap snapshot]. unfold h1 at 1 2. rewrite lookup_insert_eq.
      apply await_ok. exact Hins. }
  cbn [w_heap w_store w_issued b_stmt]. fold id.
  erewrite bind_ok.
  2:{ rewrite guarded_for_each.
      apply (create_nested_run c ctx (ret id) children id create_names o keys);
        [done | done | done | by intros w' _]. }
  cbn [w_heap w_store w_issued]. rewrite Hlocs1, Hlog1.
  unfold get_by_id, await, bind, log, ret.
  cbn [w_heap w_store w_issued b_stmt b_run _get_id].
  destruct (run_select_one E _ d1) as [[msg|node] d2];
    eexists _, d2; rewrite <- !app_assoc; reflexivity.
Qed.

(** A whole run of [update], as far as the caller's heap goes. *)
Lemma update_run (c : Crud) (args : Args) (ctx : gmap string Crud)
    (info : ResolveInfo E) (children : string → Crud) (w : World E)
    (l lw : loc) (o : props) (cw : cell) (n : Z) (d1 : db E) :
  let keys := nested_keys (schema c) o in
  let id := prop_get "id" (cell_props cw) in
  data args = VRef l →
  where_ args = VRef lw →
  w_heap w !! lw = Some cw →
  lw ∉ l :: entry_locs (w_heap w) o keys →
  tree_payload update_names (w_heap w) l o keys →
  NoDup (map fst (s_fields (schema c))) →
  (∀ k, k ∈ keys → ctx !! pascalize E k = Some (children k)) →
  run_update E (table_of c) (SObj (without keys o))
    (snapshot (w_heap w) (VRef lw)) (w_store w) = (inr n, d1) →
  ∃ p w',
    update c args ctx info w = (Ok p, w') ∧
    w_heap w' =
      mark_entries (foreign_key E c) id (entry_locs (w_heap w) o keys)
        (<[l := CObj (without keys o)]> (w_heap w)).
Proof.
  intros keys id Hdata Hwhere Hlw Hfresh Htree Hnd Hctx Hupd.
  pose proof (tp_root _ _ _ _ _ Htree) as Hroot.
  set (h1 := <[l := CObj (without keys o)]> (w_heap w)).
  assert (Hcreate : "create" ∈ update_names) by (unfold update_names; set_solver).
  destruct (collections_agrees (E := E) update_names _ h1 o keys Hcreate
              (tp_collections _ _ _ _ _ Htree)
              (stripped_agrees _ _ _ _ _ _ Htree))
    as (Hco1 & Hlocs1 & _).
  assert (Hlw1 : h1 !! lw = Some cw).
  { unfold h1. rewrite lookup_insert_ne; [done |]. intros ->. set_solver. }
  unfold update, catch_errors, try_catch.
  rewrite (bind_ok _ _ w tt w) by reflexivity.
  rewrite Hdata, Hwhere.
  rewrite (bind_ok _ _ _ _ _ (extract_nested_run _ l o [] w Hnd Hroot)).
  fold (nested_keys (schema c) o). fold keys. unfold with_heap. fold h1.
  cbn [app].
  erewrite (bind_ok _ _ (Build_World E h1 (w_store w) (w_issued w))).
  2:{ assert (Hs1 : snapshot h1 (VRef l) = SObj (without keys o)).
      { cbn [snapshot]. unfold h1. by rewrite lookup_insert_eq. }
      assert (Hs2 : snapshot h1 (VRef lw) = snapshot (w_heap w) (VRef lw)).
      { cbn [snapshot]. by rewrite Hlw1, Hlw. }
      rewrite (bind_ok _ _ _ _ _ (_update_run _ _ _ _)).
      cbn [w_heap]. rewrite Hs1, Hs2. apply await_ok. exact Hupd. }
  cbn [w_heap w_store w_issued b_stmt].
  match goal with |- context [Build_World E h1 ?d ?i] =>
    set (w2 := Build_World E h1 d i) end.
  destruct (update_nested_run c ctx (get_prop (VRef lw) "id") children id o keys w2)
    as (w3 & Hrun3 & Hheap3); [done | done | |].
  { intros w' Hw'. apply get_prop_ref. rewrite Hw'; [done |].
    cbn [w2 w_heap]. rewrite Hlocs1. set_solver. }
  erewrite bind_ok.
  2:{ rewrite guarded_for_each. exact Hrun3. }
  pose proof (keeps_heap_get c args info w3) as Hkeep.
  destruct (get c args info w3) as [[p|e] w4]; simpl in Hkeep;
    eexists _, w4; (split; [reflexivity |]);
    rewrite Hkeep, Hheap3; cbn [w2 w_heap]; by rewrite Hlocs1.
Qed.

End Runs.

Section Payloads.

Context {E : Env}.

Lemma tree_payload_create (h : heap) (l : loc) (o : props) keys :
  tree_payload update_names h l o keys → tree_payload create_names h l o keys.
Proof.
  intros [Hroot [Hn Hl He Ha] Hp]. split; [done | | done]. split; [done | | done | done].
  intros k name Hk Hname. apply Hl; [done |].
  unfold create_names in Hname. unfold update_names. set_solver.
Qed.


Lemma marked_payload (fk : string) (id : value) names (h : heap) (l : loc)
    (o : props) keys :
  tree_payload names h l o keys →
  payload_mutated fk id l o keys h
    (mark_entries fk id (entry_locs h o keys) (<[l := CObj (without keys o)]> h)).
Proof.
  intros Htree.
  assert (Hl : l ∉ entry_locs h o keys).
  { intros Hin. apply (tp_apart _ _ _ _ _ Htree), elem_of_app. by right. }
  assert (Hnd : NoDup (entry_locs h o keys)).
  { pose proof (co_apart _ _ _ _ (tp_collections _ _ _ _ _ Htree)) as Hnd.
    by apply NoDup_app in Hnd as (_ & _ & Hnd). }
  split; [| split].
  - rewrite lookup_mark_notin by done. apply lookup_insert_eq.
  - intros le Hle. rewrite lookup_mark_in by done.
    rewrite lookup_insert_ne; [done |]. by intros ->.
  - intros l' Hne Hl'. rewrite lookup_mark_notin by done.
    by rewrite lookup_insert_ne.
Qed.

End Payloads.

(** ** create and update *)


Section ConcretePayloads.


Lemma retitle_with_comment_tree :
  tree_payload update_names Cases.retitle_with_comment 1%positive
    [("title", VStr "b"); ("comments", VRef 3)] ["comments"].
Proof.
  split; [reflexivity | | apply (bool_decide_unpack _); by vm_compute].
  split.
  - intros k ->%list_elem_of_singleton. by exists 3%positive, [("create", VRef 4)].
  - intros k name ->%list_elem_of_singleton Hname.
    unfold update_names in Hname.
    apply elem_of_cons in Hname as [-> | Hname];
      [right; by exists 4%positive, [VRef 5], [] |].
    apply elem_of_cons in Hname as [-> | Hname]; [by left |].
    apply list_elem_of_singleton in Hname as ->. by left.
  - intros k e ->%list_elem_of_singleton He.
    change (e ∈ [VRef 5]) in He.
    apply list_elem_of_singleton in He as ->.
    by exists 5%positive, [("content", VStr "z")].
  - apply (bool_decide_unpack _). by vm_compute.
Qed.

Lemma posts_keys_distinct : NoDup (map fst (s_fields (schema Mem.posts))).
Proof. apply (bool_decide_unpack _). by vm_compute. Qed.

Lemma comments_registered (k : string) :
  k ∈ ["comments"] →
  Mem.ctx !! pascalize Mem.env k = Some ((λ _, Mem.comments) k).
Proof. intros ->%list_elem_of_singleton. by vm_compute. Qed.

End ConcretePayloads.



(** C10, as amended.  create and update mutate the caller's data argument
    in place.  On a tree-shaped payload, once the base statement is
    answered: the fields of the data object that are declared as arrays and
    hold a truthy value are deleted from it (and only those); every entry
    of the create lists of these fields has received the foreign-key
    property, set to the new id by create and to [args.where.id] by update;
    every other object of the caller is as it was. *)
Theorem nested_writes_mutate_caller_data (E : Env) (c : Crud) (args : Args)
    (ctx : gmap string Crud) (info : ResolveInfo E) (children : string → Crud)
    (w : World E) (l : loc) (o : props) :
  let keys := nested_keys (schema c) o in
  data args = VRef l →
  tree_payload update_names (w_heap w) l o keys →
  NoDup (map fst (s_fields (schema c))) →
  (∀ k, k ∈ keys → ctx !! pascalize E k = Some (children k)) →
  (∀ key, key ∈ keys ↔
          ∃ d, (key, d) ∈ s_fields (schema c) ∧ is_array_type (f_type d) = true ∧
               truthy (prop_get key o) = true) ∧
  (∀ key, prop_lookup key (without keys o) =
          if bool_decide (key ∈ keys) then None else prop_lookup key o) ∧
  (∀ ids d1,
     run_insert E (table_of c) (SObj (without keys o)) (w_store w) = (inr ids, d1) →
     payload_mutated (foreign_key E c) (hd VUndefined ids) l o keys
       (w_heap w) (w_heap (snd (create c args ctx info w)))) ∧
  (∀ lw cw n d1,
     where_ args = VRef lw →
     w_heap w !! lw = Some cw →
     lw ∉ l :: entry_locs (w_heap w) o keys →
     run_update E (table_of c) (SObj (without keys o))
       (snapshot (w_heap w) (VRef lw)) (w_store w) = (inr n, d1) →
     payload_mutated (foreign_key E c) (prop_get "id" (cell_props cw)) l o keys
       (w_heap w) (w_heap (snd (update c args ctx info w)))).
Proof.
  intros keys Hdata Htree Hnd Hctx. split; [| split; [| split]].
  - intros key. unfold keys, nested_keys. rewrite list_elem_of_fmap. split.
    + intros ([k d] & -> & Hin). apply list_elem_of_In, filter_In in Hin as [Hin Hn].
      unfold is_nested in Hn. apply andb_true_iff in Hn as [Harr Htruthy].
      exists d. split; [by apply list_elem_of_In | done].
    + intros (d & Hin & Harr & Htruthy). exists (key, d). split; [done |].
      apply list_elem_of_In, filter_In. split; [by apply list_elem_of_In |].
      unfold is_nested. simpl. by rewrite Harr, Htruthy.
  - intros key. case_bool_decide.
    + by apply prop_lookup_without_in.
    + by apply prop_lookup_without_notin.
  - intros ids d1 Hins.
    destruct (create_run c args ctx info children w l o ids d1 Hdata
                (tree_payload_create _ _ _ _ Htree) Hnd Hctx Hins)
      as (p & d2 & Hrun).
    fold keys in Hrun. rewrite Hrun. cbn [snd w_heap].
    by apply marked_payload with update_names.
  - intros lw cw n d1 Hwhere Hlw Hfresh Hupd.
    destruct (update_run c args ctx info children w l lw o cw n d1 Hdata Hwhere
                Hlw Hfresh Htree Hnd Hctx Hupd)
      as (p & w' & Hrun & Hheap).
    fold keys in Hheap. rewrite Hrun. cbn [snd]. rewrite Hheap.
    by apply marked_payload with update_names.
Qed.

Lemma nested_writes_mutate_caller_data_witness :
  let after_create :=
    w_heap (snd (create (E := Mem.env) Mem.posts (Cases.args_both 1 2) Mem.ctx []
                   (Mem.world Cases.retitle_with_comment Cases.one_post))) in
  let after_update :=
    w_heap (snd (update (E := Mem.env) Mem.posts (Cases.args_both 1 2) Mem.ctx []
                   (Mem.world Cases.retitle_with_comment Cases.one_post))) in
  (after_create !! 1%positive = Some (CObj [("title", VStr "b")]) ∧
   after_create !! 5%positive =
     Some (CObj [("content", VStr "z"); ("postId", VNum 2)])) ∧
  (after_update !! 1%positive = Some (CObj [("title", VStr "b")]) ∧
   after_update !! 5%positive =
     Some (CObj [("content", VStr "z"); ("postId", VNum 1)])).
Proof.
  destruct (nested_writes_mutate_caller_data Mem.env Mem.posts
              (Cases.args_both 1 2) Mem.ctx [] (λ _, Mem.comments)
              (Mem.world Cases.retitle_with_comment Cases.one_post) 1%positive
              [("title", VStr "b"); ("comments", VRef 3)]
              eq_refl retitle_with_comment_tree posts_keys_distinct
              comments_registered)
    as (_ & _ & Hcreate & Hupdate).
  split.
  - edestruct (Hcreate [VNum 2]) as (Hroot & Hentries & _); [reflexivity |].
    split; [exact Hroot |]. apply (Hentries 5%positive). by vm_compute; left.
  - edestruct (Hupdate 2%positive (CObj [("id", VNum 1)]) 1%Z)
      as (Hroot & Hentries & _).
    + reflexivity.
    + reflexivity.
    + apply (bool_decide_unpack _). by vm_compute.
    + reflexivity.
    + split; [exact Hroot |]. apply (Hentries 5%positive). by vm_compute; left.
Defined.

(** C10 as stated fails: update leaves a field declared as an array in the
    caller's data object when the payload holds null under it. *)
Lemma update_keeps_null_collection :
  ¬ update_deletes_every_array_field (E := Mem.env) Mem.posts
      (Cases.args_both 1 2) Mem.ctx []
      (Mem.world Cases.retitle_with_null_comments Cases.one_post).
Proof.
  intros H.
  destruct (H 1%positive [("title", VStr "b"); ("comments", VNull)] "comments"
              (MkField (TArray (TSchema Mem.Comment)) false false)
              eq_refl eq_refl) as (o' & Ho' & Hgone).
  - simpl. set_solver.
  - reflexivity.
  - by eexists.
  - vm_compute in Ho'. injection Ho' as <-. discriminate Hgone.
Qed.

(** * Further properties *)

(** ** deleteMany, and what the mutations answer *)

(** X1.  When the filter carries [id_in] and the statement reports [n] deleted
    rows, deleteMany returns [{ count: n }] if [n] is positive and the
    field error "Could not delete any of selected Node." otherwise. *)
Theorem deleteMany_reports_count (E : Env) (c : Crud) (args : Args) (w : World E)
    (id_in : value) (n : Z) (d : db E) :
  get_prop (where_ args) "id_in" w = (Ok id_in, w) →
  let ids := snapshot (w_heap w) id_in in
  run_delete_in E (table_of c) ids (w_store w) = (inr n, d) →
  let w' := Build_World E (w_heap w) d
              (w_issued w ++ [(DeleteIn (table_of c) ids, Awaited)]) in
  ((0 < n)%Z → deleteMany c args w = (Ok (PCount n), w')) ∧
  ((n ≤ 0)%Z →
   deleteMany c args w =
     (Ok (PErrors (FieldErrors
            [("delete",
              "Could not delete any of selected Node. Please try again later.")])),
      w')).
Proof.
  intros Hid ids Hrun w'.
  assert (Hbody : (b <- _deleteMany c (where_ args) ;; await b) w = (Ok n, w')).
  { unfold _deleteMany. unfold bind at 1. unfold bind at 1. rewrite Hid.
    unfold await, bind, log, get_heap, ret. simpl. fold ids. by rewrite Hrun. }
  split; intros Hn; unfold deleteMany, catch_errors, try_catch;
    rewrite (bind_ok _ _ _ _ _ Hbody).
  - apply Z.ltb_lt in Hn. by rewrite Hn.
  - apply Z.ltb_ge in Hn. by rewrite Hn.
Qed.

Lemma deleteMany_reports_count_witness :
  fst (deleteMany (E := Mem.env) Mem.posts (Cases.args_where 1)
         (Mem.world MoreCases.where_id_in_1_2 Cases.two_posts))
  = Ok (PCount 2).
Proof.
  rewrite (proj1 (deleteMany_reports_count Mem.env Mem.posts (Cases.args_where 1)
                    (Mem.world MoreCases.where_id_in_1_2 Cases.two_posts)
                    (VRef 2) 2 [] eq_refl eq_refl));
    [reflexivity | lia].
Defined.

Section Shapes.

Context {E : Env}.

Lemma node_or_errors_catch (body : M E (payload (row E))) w :
  (∀ p w', body w = (Ok p, w') → ∃ node, p = PNode node) →
  node_or_errors (fst (catch_errors body w)).
Proof.
  intros Hbody.
  destruct (catch_errors_total body w) as (p & w' & -> & [Hok | (e & _ & ->)]);
    simpl; [| done].
  by destruct (Hbody _ _ Hok) as [node ->].
Qed.

Lemma count_or_errors_catch (body : M E (payload (row E))) w :
  (∀ p w', body w = (Ok p, w') → ∃ n, p = PCount n ∧ (0 < n)%Z) →
  count_or_errors (fst (catch_errors body w)).
Proof.
  intros Hbody.
  destruct (catch_errors_total body w) as (p & w' & -> & [Hok | (e & _ & ->)]);
    simpl; [| done].
  by destruct (Hbody _ _ Hok) as (n & -> & Hn).
Qed.

End Shapes.

(** X2.  Whatever the arguments and the state: create, update and delete answer
    with [{ node }] or [{ errors }], never with a count; sort and
    deleteMany answer with [{ count }] or [{ errors }], and a count they
    answer with is positive. *)
Theorem answers_have_their_shape (E : Env) (c : Crud) (args : Args)
    (ctx : gmap string Crud) (info : ResolveInfo E) (w : World E) :
  node_or_errors (fst (create c args ctx info w)) ∧
  node_or_errors (fst (update c args ctx info w)) ∧
  node_or_errors (fst (delete c args info w)) ∧
  count_or_errors (fst (sort c args w)) ∧
  count_or_errors (fst (deleteMany c args w)).
Proof.
  split; [| split; [| split; [| split]]].
  - apply node_or_errors_catch. intros p w' H.
    apply bind_ok_inv in H as (? & ? & _ & H).
    apply bind_ok_inv in H as (? & ? & _ & H).
    apply bind_ok_inv in H as (? & ? & _ & H).
    apply bind_ok_inv in H as (? & ? & _ & H).
    by apply get_by_id_node in H.
  - apply node_or_errors_catch. intros p w' H.
    apply bind_ok_inv in H as (? & ? & _ & H).
    apply bind_ok_inv in H as (? & ? & _ & H).
    apply bind_ok_inv in H as (? & ? & _ & H).
    apply bind_ok_inv in H as (? & ? & _ & H).
    by apply get_node in H.
  - apply node_or_errors_catch. intros p w' H.
    apply bind_ok_inv in H as (node & w1 & Hget & H).
    apply get_node in Hget as [n ->]. simpl in H.
    apply bind_ok_inv in H as (e & w2 & _ & H).
    apply bind_ok_inv in H as (isDeleted & w3 & _ & H).
    destruct (isDeleted =? 0)%Z; simpl in H.
    + apply bind_ok_inv in H as (? & ? & H & _).
      rewrite throwIf_set in H. discriminate.
    + unfold ret in H. injection H as <- _. eauto.
  - apply count_or_errors_catch. intros p w' H.
    apply bind_ok_inv in H as (? & ? & _ & H).
    apply bind_ok_inv in H as (r & w2 & _ & H).
    destruct r as [|affectedRows r]; [discriminate |].
    destruct (Z.ltb_spec 0 affectedRows).
    + unfold ret in H. injection H as <- _. eauto.
    + apply bind_ok_inv in H as (? & ? & H & _).
      rewrite throwIf_set in H. discriminate.
  - apply count_or_errors_catch. intros p w' H.
    apply bind_ok_inv in H as (deleteCount & w2 & _ & H).
    destruct (Z.ltb_spec 0 deleteCount).
    + unfold ret in H. injection H as <- _. eauto.
    + apply bind_ok_inv in H as (? & ? & H & _).
      rewrite throwIf_set in H. discriminate.
Qed.

(** ** Calls without a filter, and rejected statements *)

(** X3.  A call whose [where] is undefined or null is answered before any
    statement is issued: delete and deleteMany return the TypeError as
    [{ errors }], and get, which catches nothing, rejects with it. *)
Theorem missing_where_issues_nothing (E : Env) (c : Crud) (args : Args)
    (info : ResolveInfo E) (w : World E) :
  where_ args = VUndefined ∨ where_ args = VNull →
  delete c args info w = (Ok (PErrors TypeError), w) ∧
  deleteMany c args w = (Ok (PErrors TypeError), w) ∧
  get c args info w = (Throw TypeError, w).
Proof.
  intros [Hw | Hw];
    unfold delete, deleteMany, get, _get, _deleteMany, catch_errors, try_catch, bind;
    rewrite Hw; done.
Qed.

Lemma missing_where_issues_nothing_witness :
  delete (E := Mem.env) Mem.posts (Cases.args_data 1) []
    (Mem.world Cases.post_with_comments Cases.one_post)
  = (Ok (PErrors TypeError), Mem.world Cases.post_with_comments Cases.one_post).
Proof.
  apply (missing_where_issues_nothing Mem.env Mem.posts (Cases.args_data 1) []
           (Mem.world Cases.post_with_comments Cases.one_post)).
  by left.
Defined.

(** X4.  When the fetch of delete is rejected, delete returns the rejection as
    [{ errors }] and never issues the delete statement. *)
Theorem delete_stops_at_rejected_fetch (E : Env) (c : Crud) (args : Args)
    (info : ResolveInfo E) (w : World E) (id : value) (msg : string) (d1 : db E) :
  get_prop (where_ args) "id" w = (Ok id, w) →
  let q := get_query E c id (fields_get E "node" (parseFields E info)) in
  run_select_one E q (w_store w) = (inl msg, d1) →
  delete c args info w =
    (Ok (PErrors (DbError msg)),
     Build_World E (w_heap w) d1 (w_issued w ++ [(SelectNest q, Awaited)])).
Proof.
  intros Hid q Hsel.
  unfold delete, catch_errors, try_catch, get, _get.
  unfold bind at 1. unfold bind at 1. unfold bind at 1. unfold bind at 1.
  rewrite Hid. simpl.
  unfold await, bind, log, ret. simpl. fold q. by rewrite Hsel.
Qed.

Lemma delete_stops_at_rejected_fetch_witness :
  delete (E := MoreCases.offline) Mem.posts (Cases.args_where 1) []
    (Build_World MoreCases.offline Cases.where_id_1 Cases.one_post [])
  = (Ok (PErrors (DbError "offline")),
     Build_World MoreCases.offline Cases.where_id_1 Cases.one_post
       [(SelectNest (get_query MoreCases.offline Mem.posts (VNum 1) []), Awaited)]).
Proof.
  exact (delete_stops_at_rejected_fetch MoreCases.offline Mem.posts
           (Cases.args_where 1) []
           (Build_World MoreCases.offline Cases.where_id_1 Cases.one_post [])
           (VNum 1) "offline" Cases.one_post eq_refl eq_refl).
Defined.

(** X5.  sort returns a rejection of its statement as [{ errors }], and a
    TypeError as [{ errors }] when the driver's answer is an empty array
    (there is no first element to read [affectedRows] from). *)
Theorem sort_without_result (E : Env) (c : Crud) (args : Args) (w : World E) :
  let bindings := snapshot (w_heap w) (data args) in
  let issued := w_issued w ++ [(RankSwap (table_of c) bindings, Awaited)] in
  (∀ msg d,
     run_rank_swap E (table_of c) bindings (w_store w) = (inl msg, d) →
     sort c args w = (Ok (PErrors (DbError msg)), Build_World E (w_heap w) d issued)) ∧
  (∀ d,
     run_rank_swap E (table_of c) bindings (w_store w) = (inr [], d) →
     sort c args w = (Ok (PErrors TypeError), Build_World E (w_heap w) d issued)).
Proof.
  intros bindings issued. split.
  - intros msg d Hrun.
    unfold sort, catch_errors, try_catch.
    rewrite (bind_ok _ _ w tt w) by reflexivity.
    unfold _sort, await, bind, log, get_heap, ret. simpl. fold bindings.
    by rewrite Hrun.
  - intros d Hrun.
    unfold sort, catch_errors, try_catch.
    rewrite (bind_ok _ _ w tt w) by reflexivity.
    unfold _sort, await, bind, log, get_heap, ret. simpl. fold bindings.
    by rewrite Hrun.
Qed.

Lemma sort_without_result_witness :
  fst (sort (E := MoreCases.offline) Mem.posts (Cases.args_data 1)
         (Build_World MoreCases.offline Cases.swap_1_2 Cases.two_posts []))
  = Ok (PErrors (DbError "offline")).
Proof.
  rewrite (proj1 (sort_without_result MoreCases.offline Mem.posts (Cases.args_data 1)
                    (Build_World MoreCases.offline Cases.swap_1_2 Cases.two_posts []))
             "offline" Cases.two_posts eq_refl).
  reflexivity.
Defined.

(** X6.  getPaginated catches nothing: when the list query is rejected it
    rejects with that error and never issues the count query; when the
    count query is rejected it rejects with that one. *)
Theorem getPaginated_rejects (E : Env) (c : Crud) (args : ListArgs)
    (info : ResolveInfo E) (w : World E) :
  let q := list_query E c args (fields_get E "edges" (parseFields E info)) in
  (∀ msg d1,
     run_select_list E q (w_store w) = (inl msg, d1) →
     getPaginated c args info w =
       (Throw (DbError msg),
        Build_World E (w_heap w) d1 (w_issued w ++ [(SelectNest q, Awaited)]))) ∧
  (∀ es d1 msg d2,
     run_select_list E q (w_store w) = (inr es, d1) →
     run_count E (table_of c) d1 = (inl msg, d2) →
     getPaginated c args info w =
       (Throw (DbError msg),
        Build_World E (w_heap w) d2
          (w_issued w ++ [(SelectNest q, Awaited);
                          (CountDistinct (table_of c), Awaited)]))).
Proof.
  intros q. split.
  - intros msg d1 Hsel.
    unfold getPaginated, _getList, await, bind, log, ret. simpl. fold q.
    by rewrite Hsel.
  - intros es d1 msg d2 Hsel Hcount.
    unfold getPaginated, _getList, getTotal, await, bind, log, ret. simpl. fold q.
    rewrite Hsel. simpl. rewrite Hcount. by rewrite <- app_assoc.
Qed.

Lemma getPaginated_rejects_witness :
  fst (getPaginated (E := MoreCases.offline) Mem.posts (Cases.no_order 2) []
         (Build_World MoreCases.offline ∅ Cases.two_posts []))
  = Throw (DbError "offline").
Proof.
  rewrite (proj1 (getPaginated_rejects MoreCases.offline Mem.posts (Cases.no_order 2)
                    [] (Build_World MoreCases.offline ∅ Cases.two_posts []))
             "offline" Cases.two_posts eq_refl).
  reflexivity.
Defined.

(** ** The list query *)

Section ListQuery.

Context {E : Env}.

Lemma last_cons_default {A} (s x : A) (l : list A) :
  default s (last (x :: l)) = default x (last l).
Proof. rewrite last_cons. by destruct (last l). Qed.

Lemma resolve_column_unknown (t : string) (fields : list (string * FieldDesc))
    (column : string) :
  column ∉ map fst fields → resolve_column E t fields column = column.
Proof.
  induction fields as [|[key d] rest IH]; intros Hcol; [done |].
  simpl in Hcol. apply not_elem_of_cons in Hcol as [Hne Hcol].
  cbn [resolve_column]. rewrite (eqb_false_ne column key Hne). by apply IH.
Qed.

End ListQuery.

Lemma remote_sort_key_last (fields : list (string * FieldDesc)) (sortBy : string) :
  remote_sort_key fields sortBy = default sortBy (last (sort_keys fields)).
Proof.
  revert sortBy. induction fields as [|[key d] rest IH]; intros sortBy; [done |].
  cbn [remote_sort_key]. rewrite IH. unfold sort_keys.
  cbn [List.filter snd]. destruct (f_sortBy d); [| done].
  cbn [map fst]. by rewrite last_cons_default.
Qed.

(** X7.  The inner loop of _getList picks the last key of the related schema
    that is flagged [sortBy], and keeps the default when no key is
    flagged: the result is the default or a flagged key, and no flagged
    key comes after it. *)
Theorem remote_sort_key_is_last_flagged (fields : list (string * FieldDesc))
    (sortBy : string) :
  remote_sort_key fields sortBy = default sortBy (last (sort_keys fields)) ∧
  (sort_keys fields = [] → remote_sort_key fields sortBy = sortBy) ∧
  (∀ before key d after,
     fields = before ++ (key, d) :: after →
     f_sortBy d = true → sort_keys after = [] →
     remote_sort_key fields sortBy = key).
Proof.
  split; [apply remote_sort_key_last | split].
  - intros Hnone. by rewrite remote_sort_key_last, Hnone.
  - intros before key d after -> Hflag Hafter.
    rewrite remote_sort_key_last. unfold sort_keys in *.
    rewrite List.filter_app. cbn [List.filter snd]. rewrite Hflag.
    rewrite map_app. cbn [map fst]. rewrite Hafter.
    by rewrite last_snoc.
Qed.

Lemma remote_sort_key_is_last_flagged_witness :
  remote_sort_key (s_fields Mem.Post) "name" = "title".
Proof.
  exact (proj2 (proj2 (remote_sort_key_is_last_flagged (s_fields Mem.Post) "name"))
           [("id", MkField (TScalar "Number") false false)]
           "title" (MkField (TScalar "String") true true)
           [("comments", MkField (TArray (TSchema Mem.Comment)) false false)]
           eq_refl eq_refl eq_refl).
Defined.

(** X8.  A limit or offset that is falsy (0, undefined, null) puts no clause on
    the query, and any other is passed on as it is; neither the ordering
    nor the search filter touches the two. *)
Theorem list_query_window (E : Env) (c : Crud) (args : ListArgs) (fields : Fields E) :
  let selected := selectBy E (schema c) fields false (prefix c)
                    (knex_as (prefix c +:+ tableName c) (tableName c)) in
  q_limit (list_query E c args fields) =
    (if truthy (limit args) then Some (limit args) else q_limit selected) ∧
  q_offset (list_query E c args fields) =
    (if truthy (offset args) then Some (offset args) else q_offset selected).
Proof.
  intros selected. unfold list_query. fold selected.
  destruct (filter args) as [[[text|]]|]; simpl;
    repeat (match goal with |- context [if ?b then _ else _] => destruct b end;
            simpl);
    destruct (order_column (orderBy args)); simpl; done.
Qed.

(** X9.  With an order column, the query gets one ordering clause after those
    of selectBy: in the direction [orderBy.order] when one is given, and
    in ['asc'] when it is missing or empty.  A column that is no key of the
    schema is passed on verbatim; a column that is a key becomes
    [`${tableName}.${decamelize(column)}`] for a plain field and
    [`${decamelize(type.name)}.${sortKey}`] for a field whose type is a
    schema (as long as that name is not itself a key). *)
Theorem list_query_orders_by_column (E : Env) (c : Crud) (args : ListArgs)
    (fields : Fields E) (ob : OrderBy) (col : string) :
  orderBy args = Some ob →
  column ob = Some col →
  col ≠ "" →
  let keys := map fst (s_fields (schema c)) in
  let resolved := resolve_column E (tableName c) (s_fields (schema c)) col in
  let selected := selectBy E (schema c) fields false (prefix c)
                    (knex_as (prefix c +:+ tableName c) (tableName c)) in
  (∀ direction, order ob = Some direction → direction ≠ "" →
     q_order (list_query E c args fields) =
       q_order selected ++ [(resolved, Some direction)]) ∧
  (order ob = None ∨ order ob = Some "" →
     q_order (list_query E c args fields) =
       q_order selected ++ [(resolved, Some "asc")]) ∧
  (col ∉ keys → resolved = col) ∧
  (∀ d, NoDup keys → (col, d) ∈ s_fields (schema c) →
        qualified E (tableName c) col d ∉ keys →
        resolved = qualified E (tableName c) col d).
Proof.
  intros Hob Hcolumn Hne keys resolved selected.
  assert (Hcol : order_column (orderBy args) = Some col).
  { rewrite Hob. unfold order_column. rewrite Hcolumn.
    by rewrite (eqb_false_ne col "" Hne). }
  assert (Horder : q_order (list_query E c args fields) =
                   q_order selected ++
                   [(resolved, Some (order_direction (orderBy args)))]).
  { unfold list_query. rewrite Hcol.
    destruct (filter args) as [[[text|]]|]; simpl;
      repeat (match goal with |- context [if ?b then _ else _] => destruct b end;
              simpl); reflexivity. }
  split; [| split; [| split]].
  - intros direction Hdir Hgiven. rewrite Horder, Hob.
    unfold order_direction. rewrite Hdir.
    by rewrite (eqb_false_ne direction "" Hgiven).
  - intros Hdir. rewrite Horder, Hob. unfold order_direction.
    by destruct Hdir as [-> | ->].
  - apply resolve_column_unknown.
  - unfold resolved, keys. generalize (tableName c) as t.
    generalize (s_fields (schema c)) as fs. clear.
    intros fs t d Hnd Hin Hq.
    induction fs as [|[key d0] rest IH]; [by apply elem_of_nil in Hin |].
    simpl in Hnd, Hq. apply NoDup_cons in Hnd as [Hkey Hnd].
    apply not_elem_of_cons in Hq as [Hq0 Hq].
    cbn [resolve_column].
    apply elem_of_cons in Hin as [Heq | Hin].
    + injection Heq as <- <-. rewrite String.eqb_refl.
      unfold qualified in *.
      destruct (is_schema_type (f_type d)) as [remote|];
        rewrite ?remote_sort_key_last;
        by apply resolve_column_unknown.
    + rewrite eqb_false_ne; [by apply IH |].
      intros <-. apply Hkey. by apply (list_elem_of_fmap_2 fst) in Hin.
Qed.

Lemma list_query_orders_by_column_witness :
  q_order (list_query Mem.env Mem.posts (MoreCases.by_title (Some "desc")) []) =
  [("post.title", Some "desc")].
Proof.
  destruct (list_query_orders_by_column Mem.env Mem.posts
              (MoreCases.by_title (Some "desc")) []
              {| column := Some "title"; order := Some "desc" |} "title"
              eq_refl eq_refl ltac:(discriminate))
    as (Hgiven & _ & _ & Hkey).
  rewrite (Hgiven "desc" eq_refl ltac:(discriminate)).
  rewrite (Hkey (MkField (TScalar "String") true true) posts_keys_distinct).
  - reflexivity.
  - simpl. set_solver.
  - apply (bool_decide_unpack _). by vm_compute.
Defined.

(** X10.  The free-text filter: a filter with a non-empty [searchText] adds one
    clause after those of selectBy, an OR of LIKE ['%text%'] over the
    columns [`${tableName}.${key}`] of exactly the fields flagged
    [searchText]; without a filter, without the property, or with the empty
    text, no clause is added. *)
Theorem list_query_search (E : Env) (c : Crud) (args : ListArgs) (fields : Fields E) :
  let selected := selectBy E (schema c) fields false (prefix c)
                    (knex_as (prefix c +:+ tableName c) (tableName c)) in
  let columns := search_columns (tableName c) (s_fields (schema c)) in
  (∀ f text, filter args = Some f → searchText f = Some text → text ≠ "" →
     q_where (list_query E c args fields) =
     q_where selected ++ [WhereLikeAny columns ("%" +:+ text +:+ "%")]) ∧
  (filter args = None ∨
   (∃ f, filter args = Some f ∧ (searchText f = None ∨ searchText f = Some "")) →
   q_where (list_query E c args fields) = q_where selected) ∧
  (∀ col, col ∈ columns ↔
          ∃ key d, (key, d) ∈ s_fields (schema c) ∧ f_searchText d = true ∧
                   col = tableName c +:+ "." +:+ key).
Proof.
  intros selected columns.
  assert (Hkeep : ∀ q, q_where
            (match order_column (orderBy args) with
             | Some column =>
                 add_order (resolve_column E (tableName c) (s_fields (schema c)) column)
                   (Some (order_direction (orderBy args))) q
             | None => add_order (tableName c +:+ ".id") None q
             end) = q_where q).
  { intros q. by destruct (order_column (orderBy args)). }
  assert (Hwin : ∀ q,
            q_where (if truthy (offset args) then set_offset (offset args) q else q)
            = q_where q ∧
            q_where (if truthy (limit args) then set_limit (limit args) q else q)
            = q_where q).
  { intros q. split; match goal with |- context [if ?b then _ else _] =>
                       by destruct b end. }
  split; [| split].
  - intros f text Hf Htext Hne. unfold list_query. rewrite Hf, Htext.
    rewrite (eqb_false_ne text "" Hne). cbn [negb add_where q_where].
    rewrite Hkeep, (proj1 (Hwin _)), (proj2 (Hwin _)). reflexivity.
  - intros [Hf | (f & Hf & [Htext | Htext])]; unfold list_query;
      rewrite Hf; rewrite ?Htext; cbn [String.eqb negb];
      rewrite Hkeep, (proj1 (Hwin _)), (proj2 (Hwin _)); reflexivity.
  - intros col. unfold columns. generalize (tableName c) as t.
    generalize (s_fields (schema c)) as fs. clear. intros fs t.
    induction fs as [|[key d] rest IH].
    + split; [by intros ?%elem_of_nil |]. by intros (? & ? & ?%elem_of_nil & _).
    + cbn [search_columns]. destruct (f_searchText d) eqn:Hflag.
      * rewrite elem_of_cons, IH. split.
        -- intros [-> | (key' & d' & Hin & Hd & ->)].
           ++ exists key, d. split; [by left | done].
           ++ exists key', d'. split; [by right | done].
        -- intros (key' & d' & Hin & Hd & ->).
           apply elem_of_cons in Hin as [Heq | Hin].
           ++ injection Heq as -> ->. by left.
           ++ right. eauto.
      * rewrite IH. split.
        -- intros (key' & d' & Hin & Hd & ->). exists key', d'.
           split; [by right | done].
        -- intros (key' & d' & Hin & Hd & ->).
           apply elem_of_cons in Hin as [Heq | Hin].
           ++ injection Heq as -> ->. congruence.
           ++ eauto.
Qed.

Lemma list_query_search_witness :
  q_where (list_query Mem.env Mem.posts (MoreCases.by_title None) []) =
  [WhereLikeAny ["post.title"] "%rocq%"].
Proof.
  exact (proj1 (list_query_search Mem.env Mem.posts (MoreCases.by_title None) [])
           {| searchText := Some "rocq" |} "rocq" eq_refl eq_refl
           ltac:(discriminate)).
Defined.

(** ** What the methods do to the caller's objects *)

Section Frames2.

Context {E : Env}.

Lemma keeps_heap_try_catch {A} (body : M E A) (handler : exn → M E A) :
  keeps_heap (E := E) body →
  (∀ e, keeps_heap (E := E) (handler e)) →
  keeps_heap (E := E) (try_catch body handler).
Proof.
  intros Hb Hh w. unfold try_catch. specialize (Hb w).
  destruct (body w) as [[a|e] w1]; simpl in *; [done |].
  by rewrite Hh.
Qed.

Lemma keeps_heap_catch_errors (body : M E (payload (row E))) :
  keeps_heap (E := E) body → keeps_heap (E := E) (catch_errors body).
Proof. intros Hb. apply keeps_heap_try_catch; [done | by intros e w]. Qed.

Lemma keeps_heap_lift {A} (r : result A) : keeps_heap (E := E) (lift r).
Proof. by intros w. Qed.

Lemma same_shape_refl (h : heap) : same_shape h h.
Proof. intros l. by destruct (h !! l) as [[]|]. Qed.

Lemma same_shape_trans (h1 h2 h3 : heap) :
  same_shape h1 h2 → same_shape h2 h3 → same_shape h1 h3.
Proof.
  intros H12 H23 l. specialize (H12 l). specialize (H23 l).
  destruct (h1 !! l) as [[]|], (h2 !! l) as [[]|], (h3 !! l) as [[]|];
    try done; congruence.
Qed.

Lemma same_shape_props (h : heap) (l : loc) (c : cell) (o : props) :
  h !! l = Some c → same_shape h (<[l := cell_with_props c o]> h).
Proof.
  intros Hl l'. destruct (decide (l = l')) as [<-|Hne].
  - rewrite lookup_insert_eq, Hl. by destruct c.
  - rewrite lookup_insert_ne by done. by destruct (h !! l') as [[]|].
Qed.

Lemma keeps_shape_of_heap {A} (m : M E A) :
  keeps_heap (E := E) m → keeps_shape (E := E) m.
Proof. intros Hm w. rewrite Hm. apply same_shape_refl. Qed.

Lemma keeps_shape_bind {A B} (m : M E A) (k : A → M E B) :
  keeps_shape (E := E) m →
  (∀ a, keeps_shape (E := E) (k a)) →
  keeps_shape (E := E) (bind m k).
Proof.
  intros Hm Hk w. unfold bind. specialize (Hm w).
  destruct (m w) as [[a|e] w1]; simpl in *; [| done].
  eapply same_shape_trans; [done | apply Hk].
Qed.

Lemma keeps_shape_detach {A} (m : M E A) :
  keeps_shape (E := E) m → keeps_shape (E := E) (detach m).
Proof. intros Hm w. unfold detach. specialize (Hm w). by destruct (m w). Qed.

Lemma keeps_shape_catch_errors (body : M E (payload (row E))) :
  keeps_shape (E := E) body → keeps_shape (E := E) (catch_errors body).
Proof.
  intros Hb w. unfold catch_errors, try_catch. specialize (Hb w).
  by destruct (body w) as [[a|e] w1].
Qed.

Lemma keeps_shape_for_each {A} (f : A → M E unit) (l : list A) :
  (∀ x, keeps_shape (E := E) (f x)) → keeps_shape (E := E) (for_each f l).
Proof.
  intros Hf. induction l as [|x l IH]; [intros w; apply same_shape_refl |].
  apply keeps_shape_bind; [apply Hf | by intros _].
Qed.

Lemma keeps_shape_set_prop v k x : keeps_shape (E := E) (set_prop v k x).
Proof.
  intros w. destruct v; try apply same_shape_refl.
  cbn [set_prop]. unfold bind, get_heap.
  destruct (w_heap w !! l) as [c|] eqn:Hl; [| apply same_shape_refl].
  by apply same_shape_props.
Qed.

Lemma keeps_shape_delete_prop v k : keeps_shape (E := E) (delete_prop v k).
Proof.
  intros w. destruct v; try apply same_shape_refl.
  cbn [delete_prop]. unfold bind, get_heap.
  destruct (w_heap w !! l) as [c|] eqn:Hl; [| apply same_shape_refl].
  by apply same_shape_props.
Qed.

Lemma keeps_heap_array_elems v : keeps_heap (E := E) (array_elems v).
Proof.
  intros w. destruct v; try reflexivity.
  cbn [array_elems]. unfold bind, get_heap.
  by destruct (w_heap w !! l) as [[]|].
Qed.

Lemma keeps_heap_builder {A} (f : heap → Builder E A) :
  keeps_heap (E := E) (h <- get_heap ;; ret (f h)).
Proof. by intros w. Qed.

Lemma keeps_shape_extract_nested fields v acc :
  keeps_shape (E := E) (extract_nested fields v acc).
Proof.
  revert acc. induction fields as [|[key d] rest IH]; intros acc.
  - intros w. apply same_shape_refl.
  - cbn [extract_nested]. destruct (is_array_type (f_type d)); [| apply IH].
    apply keeps_shape_bind;
      [apply keeps_shape_of_heap, keeps_heap_get_prop | intros x].
    destruct (truthy x); [| apply IH].
    apply keeps_shape_bind; [apply keeps_shape_delete_prop | intros _; apply IH].
Qed.

Lemma keeps_shape_map_nested nested name callback :
  (∀ key x, keeps_shape (E := E) (callback key x)) →
  keeps_shape (E := E) (map_nested nested name callback).
Proof.
  intros Hcb. unfold map_nested.
  apply keeps_shape_bind;
    [apply keeps_shape_of_heap, keeps_heap_get_prop | intros lst].
  destruct (truthy lst); [| intros w; apply same_shape_refl].
  apply keeps_shape_bind;
    [apply keeps_shape_of_heap, keeps_heap_array_elems | intros es].
  by apply keeps_shape_for_each.
Qed.

Lemma keeps_shape_create_child c ctx parent key x :
  keeps_heap (E := E) parent →
  keeps_shape (E := E) (create_child c ctx parent key x).
Proof.
  intros Hp. apply keeps_shape_detach.
  apply keeps_shape_bind; [by apply keeps_shape_of_heap | intros id].
  apply keeps_shape_bind; [apply keeps_shape_set_prop | intros _].
  apply keeps_shape_of_heap.
  apply keeps_heap_bind; [apply keeps_heap_sibling | intros child].
  apply keeps_heap_bind; [apply keeps_heap_builder | intros b].
  apply keeps_heap_log.
Qed.

Lemma keeps_heap_awaited {A} (m : M E (Builder E A)) :
  keeps_heap (E := E) m → keeps_heap (E := E) (b <- m ;; await b).
Proof.
  intros Hm. apply keeps_heap_bind; [done | intros b; apply keeps_heap_await].
Qed.

Lemma keeps_heap__deleteMany c v : keeps_heap (E := E) (_deleteMany c v).
Proof.
  apply keeps_heap_bind; [apply keeps_heap_get_prop | intros id_in].
  apply keeps_heap_builder.
Qed.

End Frames2.

(** X11.  Whatever the arguments and the state, delete, sort, deleteMany,
    updateMany, get, getPaginated and getByIds leave every object of the
    caller as it is. *)
Theorem only_create_and_update_mutate (E : Env) (c : Crud) (args : Args)
    (largs : ListArgs) (ids : list value) (by_ : string) (info : ResolveInfo E)
    (w : World E) :
  w_heap (snd (delete c args info w)) = w_heap w ∧
  w_heap (snd (sort c args w)) = w_heap w ∧
  w_heap (snd (deleteMany c args w)) = w_heap w ∧
  w_heap (snd (updateMany c args w)) = w_heap w ∧
  w_heap (snd (get c args info w)) = w_heap w ∧
  w_heap (snd (getPaginated c largs info w)) = w_heap w ∧
  w_heap (snd (getByIds ids by_ c info w)) = w_heap w.
Proof.
  split; [| split; [| split; [| split; [| split; [| split]]]]].
  - apply keeps_heap_catch_errors.
    apply keeps_heap_bind; [apply keeps_heap_get | intros node].
    apply keeps_heap_bind.
    { destruct (negb _); [| by intros w'].
      apply keeps_heap_bind; [apply keeps_heap_lift | by intros _ w']. }
    intros e. apply keeps_heap_bind.
    { apply keeps_heap_awaited, keeps_heap_builder. }
    intros isDeleted. destruct (truthy _); [by intros w' |].
    apply keeps_heap_bind; [apply keeps_heap_lift | by intros _ w'].
  - apply keeps_heap_catch_errors.
    apply keeps_heap_bind; [apply keeps_heap_lift | intros _].
    apply keeps_heap_bind.
    { apply keeps_heap_awaited, keeps_heap_builder. }
    intros [|affectedRows r]; [by intros w' |].
    destruct (0 <? affectedRows)%Z; [by intros w' |].
    apply keeps_heap_bind; [apply keeps_heap_lift | by intros _ w'].
  - apply keeps_heap_catch_errors.
    apply keeps_heap_bind.
    { apply keeps_heap_awaited, keeps_heap__deleteMany. }
    intros deleteCount. destruct (0 <? deleteCount)%Z; [by intros w' |].
    apply keeps_heap_bind; [apply keeps_heap_lift | by intros _ w'].
  - reflexivity.
  - apply keeps_heap_get.
  - apply keeps_heap_bind; [apply keeps_heap_await | intros es].
    apply keeps_heap_bind; [apply keeps_heap_await | by intros n w'].
  - apply keeps_heap_bind; [apply keeps_heap_await | by intros res w'].
Qed.

(** X12.  Whatever the arguments and the state, create and update only change
    properties: after the call the caller's heap has the same objects and
    arrays at the same places, and every array has the elements it had. *)
Theorem create_and_update_keep_the_shape (E : Env) (c : Crud) (args : Args)
    (ctx : gmap string Crud) (info : ResolveInfo E) (w : World E) :
  same_shape (w_heap w) (w_heap (snd (create c args ctx info w))) ∧
  same_shape (w_heap w) (w_heap (snd (update c args ctx info w))).
Proof.
  split.
  - apply keeps_shape_catch_errors.
    apply keeps_shape_bind;
      [apply keeps_shape_of_heap, keeps_heap_lift | intros _].
    apply keeps_shape_bind; [apply keeps_shape_extract_nested | intros nested].
    apply keeps_shape_bind.
    { apply keeps_shape_of_heap, keeps_heap_awaited, keeps_heap_builder. }
    intros ids. apply keeps_shape_bind.
    + destruct (0 <? length nested)%nat; [| intros w'; apply same_shape_refl].
      apply keeps_shape_for_each. intros n.
      apply keeps_shape_map_nested. intros key x.
      apply keeps_shape_create_child. by intros w'.
    + intros _. apply keeps_shape_of_heap, keeps_heap_get_by_id.
  - apply keeps_shape_catch_errors.
    apply keeps_shape_bind;
      [apply keeps_shape_of_heap, keeps_heap_lift | intros _].
    apply keeps_shape_bind; [apply keeps_shape_extract_nested | intros nested].
    apply keeps_shape_bind.
    { apply keeps_shape_of_heap, keeps_heap_awaited, keeps_heap_builder. }
    intros n. apply keeps_shape_bind.
    + destruct (0 <? length nested)%nat; [| intros w'; apply same_shape_refl].
      apply keeps_shape_for_each. intros nd.
      apply keeps_shape_bind.
      { apply keeps_shape_map_nested. intros key x.
        apply keeps_shape_create_child, keeps_heap_get_prop. }
      intros _. apply keeps_shape_bind.
      { apply keeps_shape_map_nested. intros key x.
        apply keeps_shape_of_heap, keeps_heap_update_child. }
      intros _. apply keeps_shape_map_nested. intros key x.
      apply keeps_shape_of_heap, keeps_heap_delete_child.
    + intros _. apply keeps_shape_of_heap, keeps_heap_get.
Qed.

(** ** Failures in the middle of a nested write *)

(** X13.  When the base statement of create or update is rejected, the method
    returns the rejection as [{ errors }], and issues neither a child
    statement nor the fetch; the nested collections have by then been
    deleted from the caller's data object all the same. *)
Theorem rejected_base_statement (E : Env) (c : Crud) (args : Args)
    (ctx : gmap string Crud) (info : ResolveInfo E) (w : World E)
    (l : loc) (o : props) :
  let keys := nested_keys (schema c) o in
  let h1 := <[l := CObj (without keys o)]> (w_heap w) in
  let row := SObj (without keys o) in
  data args = VRef l →
  w_heap w !! l = Some (CObj o) →
  NoDup (map fst (s_fields (schema c))) →
  (∀ msg d1,
     run_insert E (table_of c) row (w_store w) = (inl msg, d1) →
     create c args ctx info w =
       (Ok (PErrors (DbError msg)),
        Build_World E h1 d1 (w_issued w ++ [(Insert (table_of c) row, Awaited)]))) ∧
  (∀ msg d1,
     run_update E (table_of c) row (snapshot h1 (where_ args)) (w_store w)
       = (inl msg, d1) →
     update c args ctx info w =
       (Ok (PErrors (DbError msg)),
        Build_World E h1 d1
          (w_issued w ++
           [(Update (table_of c) row (snapshot h1 (where_ args)), Awaited)]))).
Proof.
  intros keys h1 row Hdata Hroot Hnd.
  assert (Hrow : snapshot h1 (VRef l) = row).
  { cbn [snapshot]. unfold h1. by rewrite lookup_insert_eq. }
  split; intros msg d1 Hrun.
  - unfold create, catch_errors, try_catch.
    rewrite (bind_ok _ _ w tt w) by reflexivity.
    rewrite Hdata.
    rewrite (bind_ok _ _ _ _ _ (extract_nested_run _ l o [] w Hnd Hroot)).
    fold (nested_keys (schema c) o). fold keys. unfold with_heap. fold h1.
    assert (Hthrow : (b <- _create c (VRef l) ;; await b)
                       (Build_World E h1 (w_store w) (w_issued w)) =
                     (Throw (DbError msg),
                      Build_World E h1 d1
                        (w_issued w ++ [(Insert (table_of c) row, Awaited)]))).
    { rewrite (bind_ok _ _ _ _ _ (_create_run _ _ _)).
      cbn [w_heap]. rewrite Hrow.
      unfold await, bind, log. cbn [b_run b_stmt w_heap w_store w_issued].
      by rewrite Hrun. }
    by rewrite (bind_throw _ _ _ _ _ Hthrow).
  - unfold update, catch_errors, try_catch.
    rewrite (bind_ok _ _ w tt w) by reflexivity.
    rewrite Hdata.
    rewrite (bind_ok _ _ _ _ _ (extract_nested_run _ l o [] w Hnd Hroot)).
    fold (nested_keys (schema c) o). fold keys. unfold with_heap. fold h1.
    assert (Hthrow : (b <- _update c (VRef l) (where_ args) ;; await b)
                       (Build_World E h1 (w_store w) (w_issued w)) =
                     (Throw (DbError msg),
                      Build_World E h1 d1
                        (w_issued w ++
                         [(Update (table_of c) row (snapshot h1 (where_ args)),
                           Awaited)]))).
    { rewrite (bind_ok _ _ _ _ _ (_update_run _ _ _ _)).
      cbn [w_heap]. rewrite Hrow.
      unfold await, bind, log. cbn [b_run b_stmt w_heap w_store w_issued].
      by rewrite Hrun. }
    by rewrite (bind_throw _ _ _ _ _ Hthrow).
Qed.

Lemma rejected_base_statement_witness :
  create (E := MoreCases.read_only) Mem.posts (Cases.args_data 1) Mem.ctx []
    (Build_World MoreCases.read_only Cases.post_with_comments [] [])
  = (Ok (PErrors (DbError "read only")),
     Build_World MoreCases.read_only
       (<[1%positive := CObj [("title", VStr "a")]]> Cases.post_with_comments) []
       [(Insert "app_post" (SObj [("title", VStr "a")]), Awaited)]).
Proof.
  exact (proj1 (rejected_base_statement MoreCases.read_only Mem.posts
                  (Cases.args_data 1) Mem.ctx []
                  (Build_World MoreCases.read_only Cases.post_with_comments [] [])
                  1%positive [("title", VStr "a"); ("comments", VRef 2)]
                  eq_refl eq_refl posts_keys_distinct)
           "read only" [] eq_refl).
Defined.

(** X14.  When the create list of the first nested collection is truthy but not
    an array, create returns a TypeError as [{ errors }] after the base
    row has been inserted: the insert is the only statement issued, and
    the row is not fetched. *)
Theorem create_fails_after_insert (E : Env) (c : Crud) (args : Args)
    (ctx : gmap string Crud) (info : ResolveInfo E) (w : World E)
    (l lk : loc) (o ok : props) (k : string) (ks : list string)
    (ids : list value) (d1 : db E) :
  let keys := nested_keys (schema c) o in
  let h1 := <[l := CObj (without keys o)]> (w_heap w) in
  let row := SObj (without keys o) in
  data args = VRef l →
  w_heap w !! l = Some (CObj o) →
  NoDup (map fst (s_fields (schema c))) →
  keys = k :: ks →
  prop_get k o = VRef lk →
  lk ≠ l →
  w_heap w !! lk = Some (CObj ok) →
  truthy (prop_get "create" ok) = true →
  (∀ la, prop_get "create" ok = VRef la →
         ∃ o', w_heap w !! la = Some (CObj o')) →
  run_insert E (table_of c) row (w_store w) = (inr ids, d1) →
  create c args ctx info w =
    (Ok (PErrors TypeError),
     Build_World E h1 d1 (w_issued w ++ [(Insert (table_of c) row, Awaited)])).
Proof.
  intros keys h1 row Hdata Hroot Hnd Hkeys Hk Hne Hlk Htruthy Hbad Hins.
  assert (Hrow : snapshot h1 (VRef l) = row).
  { cbn [snapshot]. unfold h1. by rewrite lookup_insert_eq. }
  unfold create, catch_errors, try_catch.
  rewrite (bind_ok _ _ w tt w) by reflexivity.
  rewrite Hdata.
  rewrite (bind_ok _ _ _ _ _ (extract_nested_run _ l o [] w Hnd Hroot)).
  fold (nested_keys (schema c) o). fold keys. unfold with_heap. fold h1.
  erewrite (bind_ok _ _ (Build_World E h1 (w_store w) (w_issued w))).
  2:{ rewrite (bind_ok _ _ _ _ _ (_create_run _ _ _)).
      cbn [w_heap]. rewrite Hrow. apply await_ok. exact Hins. }
  cbn [w_heap w_store w_issued b_stmt app].
  match goal with |- context [Build_World E h1 d1 ?i] =>
    set (w2 := Build_World E h1 d1 i) end.
  assert (Hlk1 : h1 !! lk = Some (CObj ok)).
  { unfold h1. by rewrite lookup_insert_ne. }
  assert (Helems : array_elems (prop_get "create" ok) w2 = (Throw TypeError, w2)).
  { destruct (prop_get "create" ok) as [| | | | |la] eqn:Hcreate; try done.
    cbn [array_elems]. unfold bind, get_heap. cbn [w2 w_heap].
    destruct (Hbad la eq_refl) as [o' Hla].
    destruct (decide (la = l)) as [->|Hla'].
    - unfold h1. by rewrite lookup_insert_eq.
    - unfold h1. by rewrite lookup_insert_ne, Hla. }
  assert (Hnested : map_nested (k, VRef lk) "create"
                      (create_child c ctx (ret (hd VUndefined ids))) w2 =
                    (Throw TypeError, w2)).
  { unfold map_nested. cbn [fst snd].
    rewrite (bind_ok _ _ _ _ _ (get_prop_ref lk "create" _ w2 Hlk1)).
    cbn [cell_props]. rewrite Htruthy.
    by rewrite (bind_throw _ _ _ _ _ Helems). }
  assert (Hloop : (if (0 <? length (map (λ k, (k, prop_get k o)) keys))%nat
                   then for_each
                          (λ nested, map_nested nested "create"
                             (create_child c ctx (ret (hd VUndefined ids))))
                          (map (λ k, (k, prop_get k o)) keys)
                   else ret tt) w2 = (Throw TypeError, w2)).
  { rewrite guarded_for_each, Hkeys. cbn [map for_each]. rewrite Hk.
    by rewrite (bind_throw _ _ _ _ _ Hnested). }
  by rewrite (bind_throw _ _ _ _ _ Hloop).
Qed.

Lemma create_fails_after_insert_witness :
  create (E := Mem.env) Mem.posts (Cases.args_data 1) Mem.ctx []
    (Mem.world MoreCases.post_with_bad_create [])
  = (Ok (PErrors TypeError),
     Build_World Mem.env
       (<[1%positive := CObj [("title", VStr "a")]]> MoreCases.post_with_bad_create)
       (snd (Mem.insert "app_post" (SObj [("title", VStr "a")]) []))
       [(Insert "app_post" (SObj [("title", VStr "a")]), Awaited)]).
Proof.
  apply (create_fails_after_insert Mem.env Mem.posts (Cases.args_data 1) Mem.ctx []
           (Mem.world MoreCases.post_with_bad_create [])
           1%positive 2%positive [("title", VStr "a"); ("comments", VRef 2)]
           [("create", VRef 3)] "comments" [] [VNum 1]);
    try reflexivity.
  - apply posts_keys_distinct.
  - discriminate.
  - intros la Hla. injection Hla as <-. by eexists.
Defined.

Section NoData.

Context {E : Env}.

Lemma extract_nested_without_data (fields : list (string * FieldDesc))
    (v : value) (acc : list (string * value)) (w : World E) :
  v = VUndefined ∨ v = VNull →
  extract_nested fields v acc w =
    if existsb (λ kd, is_array_type (f_type (snd kd))) fields
    then (Throw TypeError, w) else (Ok acc, w).
Proof.
  intros Hv. induction fields as [|[key d] rest IH]; [done |].
  cbn [extract_nested existsb snd].
  destruct (is_array_type (f_type d)); [| apply IH].
  by destruct Hv as [-> | ->].
Qed.

End NoData.

(** X15.  A call without a data object (undefined or null), on a schema that
    declares an array field: create and update return a TypeError as
    [{ errors }] before any statement is issued. *)
Theorem nested_write_without_data (E : Env) (c : Crud) (args : Args)
    (ctx : gmap string Crud) (info : ResolveInfo E) (w : World E) :
  data args = VUndefined ∨ data args = VNull →
  existsb (λ kd, is_array_type (f_type (snd kd))) (s_fields (schema c)) = true →
  create c args ctx info w = (Ok (PErrors TypeError), w) ∧
  update c args ctx info w = (Ok (PErrors TypeError), w).
Proof.
  intros Hdata Harr.
  pose proof (extract_nested_without_data (s_fields (schema c)) (data args) [] w
                Hdata) as Hx.
  rewrite Harr in Hx.
  split; unfold create, update, catch_errors, try_catch;
    rewrite (bind_ok _ _ w tt w) by reflexivity;
    by rewrite (bind_throw _ _ _ _ _ Hx).
Qed.

Lemma nested_write_without_data_witness :
  create (E := Mem.env) Mem.posts (Cases.args_where 1) Mem.ctx []
    (Mem.world Cases.where_id_1 Cases.one_post)
  = (Ok (PErrors TypeError), Mem.world Cases.where_id_1 Cases.one_post).
Proof.
  apply (nested_write_without_data Mem.env Mem.posts (Cases.args_where 1) Mem.ctx []
           (Mem.world Cases.where_id_1 Cases.one_post)); [by left | reflexivity].
Defined.

(** ** The callbacks of the nested lists *)

Section Requests.

Context {E : Env}.

Lemma get_prop_read (v : value) (k : string) (w : World E) :
  get_prop v k w =
    match read_prop (w_heap w) v k with
    | Some x => (Ok x, w)
    | None => (Throw TypeError, w)
    end.
Proof.
  destruct v; try reflexivity.
  cbn [get_prop read_prop]. unfold bind, get_heap.
  by destruct (w_heap w !! l).
Qed.

Lemma update_child_run (ctx : gmap string Crud) (key : string) (child : Crud)
    (e : value) (w : World E) :
  ctx !! pascalize E key = Some child →
  update_child ctx key e w =
    (Ok tt, with_issued w (option_list (update_request child (w_heap w) e))).
Proof.
  intros Hctx. unfold update_child, detach, update_request, with_issued.
  rewrite (bind_ok _ _ _ _ _ (sibling_ok _ _ _ _ Hctx)).
  unfold bind at 1. rewrite get_prop_read.
  destruct (read_prop (w_heap w) e "data") as [d|]; cbn [mbind option_bind].
  - unfold bind at 1. rewrite get_prop_read.
    destruct (read_prop (w_heap w) e "where") as [wh|]; cbn [option_list].
    + by rewrite (bind_ok _ _ _ _ _ (_update_run _ _ _ _)).
    + rewrite app_nil_r. by destruct w.
  - cbn [option_list]. rewrite app_nil_r. by destruct w.
Qed.

Lemma delete_child_run (ctx : gmap string Crud) (key : string) (child : Crud)
    (e : value) (w : World E) :
  ctx !! pascalize E key = Some child →
  delete_child ctx key e w =
    (Ok tt, with_issued w [delete_request child (w_heap w) e]).
Proof.
  intros Hctx. unfold delete_child, detach.
  by rewrite (bind_ok _ _ _ _ _ (sibling_ok _ _ _ _ Hctx)).
Qed.

Lemma with_issued_nil (w : World E) : with_issued w [] = w.
Proof. unfold with_issued. rewrite app_nil_r. by destruct w. Qed.

Lemma with_issued_app (w : World E) l l' :
  with_issued (with_issued w l) l' = with_issued w (l ++ l').
Proof. unfold with_issued. cbn [w_heap w_store w_issued]. by rewrite app_assoc. Qed.

Lemma omap_option_list_cons {A B} (f : A → option B) (x : A) (l : list A) :
  omap f (x :: l) = option_list (f x) ++ omap f l.
Proof. cbn [omap list_omap]. by destruct (f x). Qed.

Lemma update_entries_run (ctx : gmap string Crud) (key : string) (child : Crud)
    (es : list value) (w : World E) :
  ctx !! pascalize E key = Some child →
  for_each (update_child ctx key) es w =
    (Ok tt, with_issued w (omap (update_request child (w_heap w)) es)).
Proof.
  intros Hctx. revert w. induction es as [|e es IH]; intros w.
  - simpl. by rewrite with_issued_nil.
  - cbn [for_each].
    rewrite (bind_ok _ _ _ _ _ (update_child_run ctx key child e w Hctx)).
    rewrite IH. cbn [with_issued w_heap].
    by rewrite with_issued_app, omap_option_list_cons.
Qed.

Lemma delete_entries_run (ctx : gmap string Crud) (key : string) (child : Crud)
    (es : list value) (w : World E) :
  ctx !! pascalize E key = Some child →
  for_each (delete_child ctx key) es w =
    (Ok tt, with_issued w (map (delete_request child (w_heap w)) es)).
Proof.
  intros Hctx. revert w. induction es as [|e es IH]; intros w.
  - simpl. by rewrite with_issued_nil.
  - cbn [for_each].
    rewrite (bind_ok _ _ _ _ _ (delete_child_run ctx key child e w Hctx)).
    rewrite IH. cbn [with_issued w_heap].
    by rewrite with_issued_app.
Qed.

End Requests.

(** X16.  The entries of a nested update list and of a nested delete list, on a
    sibling registered in ctx: each entry of an update list that has its
    [data] and [where] readable hands over one update of the sibling's
    table with these two, an entry that is undefined or null hands over
    nothing, and no error leaves the callbacks; each entry of a delete
    list hands over one delete with the entry itself as the filter.
    Nothing else changes. *)
Theorem nested_requests_are_handed_over (E : Env) (ctx : gmap string Crud)
    (key : string) (child : Crud) (es : list value) (w : World E) :
  ctx !! pascalize E key = Some child →
  for_each (update_child ctx key) es w =
    (Ok tt, with_issued w (omap (update_request child (w_heap w)) es)) ∧
  for_each (delete_child ctx key) es w =
    (Ok tt, with_issued w (map (delete_request child (w_heap w)) es)).
Proof.
  intros Hctx. split.
  - by apply update_entries_run.
  - by apply delete_entries_run.
Qed.

Lemma nested_requests_are_handed_over_witness :
  w_issued (snd (for_each (update_child (E := Mem.env) Mem.ctx "comments")
                   [VRef 1; VNull] (Mem.world MoreCases.nested_requests []))) =
  [(Update "app_comment" (SObj [("content", VStr "w")]) (SObj [("id", VNum 1)]),
    Detached)] ∧
  w_issued (snd (for_each (delete_child (E := Mem.env) Mem.ctx "comments")
                   [VRef 4; VNull] (Mem.world MoreCases.nested_requests []))) =
  [(Delete "app_comment" (SObj [("id", VNum 3)]), Detached);
   (Delete "app_comment" (SPrim VNull), Detached)].
Proof.
  split.
  - rewrite (proj1 (nested_requests_are_handed_over Mem.env Mem.ctx "comments"
                      Mem.comments [VRef 1; VNull]
                      (Mem.world MoreCases.nested_requests []) eq_refl)).
    reflexivity.
  - rewrite (proj2 (nested_requests_are_handed_over Mem.env Mem.ctx "comments"
                      Mem.comments [VRef 4; VNull]
                      (Mem.world MoreCases.nested_requests []) eq_refl)).
    reflexivity.
Defined.

(** X17.  When ctx has no sibling for a nested key, the callbacks of its lists
    issue nothing and let no error out; the entries of a create list
    that are objects have received the foreign key all the same, since
    it is written before the sibling is looked up. *)
Theorem unregistered_sibling_is_dropped (E : Env) (c : Crud)
    (ctx : gmap string Crud) (key : string) (id : value) (es : list value)
    (w : World E) :
  ctx !! pascalize E key = None →
  (∀ e, e ∈ es → ∃ le, e = VRef le ∧ is_Some (w_heap w !! le)) →
  for_each (create_child c ctx (ret id) key) es w =
    (Ok tt,
     with_heap w (mark_entries (foreign_key E c) id (omap as_loc es) (w_heap w))) ∧
  for_each (update_child ctx key) es w = (Ok tt, w) ∧
  for_each (delete_child ctx key) es w = (Ok tt, w).
Proof.
  intros Hctx Hes. split; [| split].
  - revert w Hes. induction es as [|e es IH]; intros w Hes.
    + simpl. unfold ret, with_heap. by destruct w.
    + destruct (Hes e) as (le & -> & [ce Hle]); [by left |].
      cbn [for_each]. unfold create_child at 1, detach at 1.
      unfold bind at 1. unfold bind at 1. unfold ret at 1.
      unfold bind at 1. rewrite (set_prop_ref _ _ _ _ _ Hle).
      unfold bind at 1, sibling at 1. rewrite Hctx. unfold throw at 1.
      rewrite IH.
      * reflexivity.
      * intros e He. destruct (Hes e) as (le' & -> & Hle'); [by right |].
        exists le'. split; [done |]. unfold with_heap. cbn [w_heap].
        rewrite lookup_alter. destruct (decide (le = le')) as [<-|];
          [by rewrite Hle | done].
  - clear Hes. revert w. induction es as [|e es IH]; intros w; [done |].
    cbn [for_each]. unfold update_child at 1, detach at 1, bind at 1 2, sibling at 1.
    rewrite Hctx. unfold throw at 1. apply IH.
  - clear Hes. revert w. induction es as [|e es IH]; intros w; [done |].
    cbn [for_each]. unfold delete_child at 1, detach at 1, bind at 1 2, sibling at 1.
    rewrite Hctx. unfold throw at 1. apply IH.
Qed.

Lemma unregistered_sibling_is_dropped_witness :
  for_each (create_child (E := Mem.env) Mem.posts Mem.ctx (ret (VNum 7)) "tags")
    [VRef 4] (Mem.world MoreCases.nested_requests [])
  = (Ok tt,
     Mem.world
       (alter (with_foreign_key "postId" (VNum 7)) 4%positive
          MoreCases.nested_requests) []).
Proof.
  apply (unregistered_sibling_is_dropped Mem.env Mem.posts Mem.ctx "tags" (VNum 7)
           [VRef 4] (Mem.world MoreCases.nested_requests [])); [reflexivity |].
  intros e ->%list_elem_of_singleton. exists 4%positive. split; [done |].
  by eexists.
Defined.

(** ** update with nested update and delete lists *)

Section Dispatch.

Context {E : Env}.

Lemma no_create_entries names (h : heap) (o : props) (k : string) (ks : list string) :
  collections names h o (k :: ks) →
  entry_locs h o (k :: ks) = [] →
  entries_of "create" h o k = [] ∧ entry_locs h o ks = [].
Proof.
  intros Hco Hlocs. rewrite entry_locs_cons in Hlocs.
  apply app_eq_nil in Hlocs as [Hk Hks]. split; [| done].
  destruct (entries_of "create" h o k) as [|e es] eqn:Hes; [done |].
  destruct (co_entries _ _ _ _ Hco k e) as (le & oe & -> & _);
    [by left | rewrite Hes; by left | discriminate].
Qed.

(** The second loop of [update] on collections without create entries. *)
Lemma update_requests_run (c : Crud) (ctx : gmap string Crud)
    (parent : M E value) (children : string → Crud) (o : props)
    (keys : list string) (w : World E) :
  collections update_names (w_heap w) o keys →
  entry_locs (w_heap w) o keys = [] →
  (∀ k, k ∈ keys → ctx !! pascalize E k = Some (children k)) →
  for_each (λ nested,
              map_nested nested "create" (create_child c ctx parent) ;;
              map_nested nested "update" (update_child ctx) ;;
              map_nested nested "delete" (delete_child ctx))
           (map (λ k, (k, prop_get k o)) keys) w =
    (Ok tt,
     with_issued w
       (List.flat_map
          (λ k, omap (update_request (children k) (w_heap w))
                     (entries_of "update" (w_heap w) o k) ++
                map (delete_request (children k) (w_heap w))
                    (entries_of "delete" (w_heap w) o k))
          keys)).
Proof.
  revert w. induction keys as [|k ks IH]; intros w Hco Hlocs Hctx.
  - simpl. by rewrite with_issued_nil.
  - destruct (no_create_entries _ _ _ _ _ Hco Hlocs) as [Hnone Hlocs'].
    destruct (co_nested _ _ _ _ Hco k) as (lk & ok & Hlk & Hok); [by left |].
    assert (Hlists : ∀ name, name ∈ update_names →
              truthy (prop_get name ok) = false ∨
              ∃ la es x, prop_get name ok = VRef la ∧
                         w_heap w !! la = Some (CArr es x)).
    { intros name Hname.
      destruct (co_lists _ _ _ _ Hco k name) as [Hf | Ha];
        [by left | done | |]; rewrite Hlk in *; simpl in *; rewrite Hok in *;
        simpl in *; [by left | by right]. }
    assert (Hchild : ctx !! pascalize E k = Some (children k))
      by (apply Hctx; by left).
    assert (Hc : map_nested (k, VRef lk) "create" (create_child c ctx parent) w =
                 (Ok tt, w)).
    { rewrite (map_nested_run k lk ok "create" _ w Hok)
        by (apply Hlists; unfold update_names; set_solver).
      by rewrite <- (entries_of_ref "create" _ o k lk ok Hlk Hok), Hnone. }
    set (w1 := with_issued w
                 (omap (update_request (children k) (w_heap w))
                       (entries_of "update" (w_heap w) o k))).
    assert (Hu : map_nested (k, VRef lk) "update" (update_child ctx) w = (Ok tt, w1)).
    { rewrite (map_nested_run k lk ok "update" _ w Hok)
        by (apply Hlists; unfold update_names; set_solver).
      rewrite <- (entries_of_ref "update" _ o k lk ok Hlk Hok).
      by apply update_entries_run. }
    set (w2 := with_issued w1
                 (map (delete_request (children k) (w_heap w))
                      (entries_of "delete" (w_heap w) o k))).
    assert (Hd : map_nested (k, VRef lk) "delete" (delete_child ctx) w1 = (Ok tt, w2)).
    { rewrite (map_nested_run k lk ok "delete" _ w1 Hok)
        by (apply Hlists; unfold update_names; set_solver).
      change (w_heap w1) with (w_heap w).
      rewrite <- (entries_of_ref "delete" _ o k lk ok Hlk Hok).
      by apply (delete_entries_run ctx k (children k) _ w1). }
    cbn [map for_each List.flat_map]. rewrite Hlk.
    assert (Hstep : (map_nested (k, VRef lk) "create" (create_child c ctx parent) ;;
                     map_nested (k, VRef lk) "update" (update_child ctx) ;;
                     map_nested (k, VRef lk) "delete" (delete_child ctx)) w =
                    (Ok tt, w2)).
    { rewrite (bind_ok _ _ _ _ _ Hc). by rewrite (bind_ok _ _ _ _ _ Hu). }
    rewrite (bind_ok _ _ _ _ _ Hstep).
    rewrite (IH w2);
      [| by apply collections_tail with k | done | intros k' Hk'; apply Hctx; by right].
    unfold w2, w1. rewrite !with_issued_app. cbn [with_issued w_heap].
    by rewrite <- !app_assoc.
Qed.

Lemma get_run (c : Crud) (args : Args) (info : ResolveInfo E) (w : World E)
    (id : value) :
  read_prop (w_heap w) (where_ args) "id" = Some id →
  let q := get_query E c id (fields_get E "node" (parseFields E info)) in
  get c args info w =
    match run_select_one E q (w_store w) with
    | (inr node, d) =>
        (Ok (PNode node),
         Build_World E (w_heap w) d (w_issued w ++ [(SelectNest q, Awaited)]))
    | (inl msg, d) =>
        (Throw (DbError msg),
         Build_World E (w_heap w) d (w_issued w ++ [(SelectNest q, Awaited)]))
    end.
Proof.
  intros Hid q. unfold get, _get.
  unfold bind at 1. unfold bind at 1. rewrite get_prop_read, Hid.
  unfold ret at 1. unfold await, bind, log, ret.
  cbn [w_heap w_store w_issued b_stmt b_run _get_id]. fold q.
  by destruct (run_select_one E q (w_store w)) as [[msg|node] d].
Qed.

End Dispatch.

(** X18.  update on a tree-shaped payload whose nested collections carry no
    create entries, once the base update is answered: after the base
    update, for each nested collection in schema order, one update of the
    sibling's table per entry of its update list and then one delete per
    entry of its delete list are handed over, unawaited; then the row is
    fetched by [args.where.id].  The requests are taken from the objects
    as they are after the nested collections were deleted from the data
    object, which is the only change to the caller's heap. *)
Theorem update_dispatches_nested_requests (E : Env) (c : Crud) (args : Args)
    (ctx : gmap string Crud) (info : ResolveInfo E) (children : string → Crud)
    (w : World E) (l : loc) (o : props) (id : value) (n : Z) (d1 : db E) :
  let keys := nested_keys (schema c) o in
  let h1 := <[l := CObj (without keys o)]> (w_heap w) in
  data args = VRef l →
  tree_payload update_names (w_heap w) l o keys →
  entry_locs (w_heap w) o keys = [] →
  NoDup (map fst (s_fields (schema c))) →
  (∀ k, k ∈ keys → ctx !! pascalize E k = Some (children k)) →
  read_prop h1 (where_ args) "id" = Some id →
  run_update E (table_of c) (SObj (without keys o)) (snapshot h1 (where_ args))
    (w_store w) = (inr n, d1) →
  w_issued (snd (update c args ctx info w)) =
    w_issued w ++
    [(Update (table_of c) (SObj (without keys o)) (snapshot h1 (where_ args)),
      Awaited)] ++
    List.flat_map
      (λ k, omap (update_request (children k) h1) (entries_of "update" h1 o k) ++
            map (delete_request (children k) h1) (entries_of "delete" h1 o k))
      keys ++
    [(SelectNest (get_query E c id (fields_get E "node" (parseFields E info))),
      Awaited)] ∧
  w_heap (snd (update c args ctx info w)) = h1.
Proof.
  intros keys h1 Hdata Htree Hnone Hnd Hctx Hid Hupd.
  pose proof (tp_root _ _ _ _ _ Htree) as Hroot.
  assert (Hcreate : "create" ∈ update_names) by (unfold update_names; set_solver).
  destruct (collections_agrees (E := E) update_names _ h1 o keys Hcreate
              (tp_collections _ _ _ _ _ Htree)
              (stripped_agrees _ _ _ _ _ _ Htree))
    as (Hco1 & Hlocs1 & _).
  assert (Hrow : snapshot h1 (VRef l) = SObj (without keys o)).
  { cbn [snapshot]. unfold h1. by rewrite lookup_insert_eq. }
  unfold update, catch_errors, try_catch.
  rewrite (bind_ok _ _ w tt w) by reflexivity.
  rewrite Hdata.
  rewrite (bind_ok _ _ _ _ _ (extract_nested_run _ l o [] w Hnd Hroot)).
  fold (nested_keys (schema c) o). fold keys. unfold with_heap. fold h1.
  cbn [app].
  assert (Hbase : (b <- _update c (VRef l) (where_ args) ;; await b)
                    (Build_World E h1 (w_store w) (w_issued w)) =
                  (Ok n,
                   Build_World E h1 d1
                     (w_issued w ++
                      [(Update (table_of c) (SObj (without keys o))
                          (snapshot h1 (where_ args)), Awaited)]))).
  { rewrite (bind_ok _ _ _ _ _ (_update_run _ _ _ _)).
    cbn [w_heap]. rewrite Hrow.
    unfold await, bind, log. cbn [b_run b_stmt w_heap w_store w_issued].
    by rewrite Hupd. }
  rewrite (bind_ok _ _ _ _ _ Hbase).
  match goal with |- context [Build_World E h1 d1 ?i] =>
    set (w2 := Build_World E h1 d1 i) end.
  erewrite bind_ok.
  2:{ rewrite guarded_for_each.
      apply (update_requests_run c ctx _ children o keys w2);
        [done | exact (eq_trans Hlocs1 Hnone) | done]. }
  rewrite (get_run c args info _ id) by exact Hid.
  cbn [with_issued w2 w_heap w_store w_issued].
  destruct (run_select_one E _ d1) as [[msg|node] d2];
    cbn [snd w_issued w_heap]; (split; [by rewrite <- !app_assoc | done]).
Qed.

Lemma retitle_with_requests_tree :
  tree_payload update_names MoreCases.retitle_with_requests 1%positive
    [("title", VStr "b"); ("comments", VRef 3)] ["comments"].
Proof.
  split; [reflexivity | | apply (bool_decide_unpack _); by vm_compute].
  split.
  - intros k ->%list_elem_of_singleton.
    by exists 3%positive, [("update", VRef 4); ("delete", VRef 5)].
  - intros k name ->%list_elem_of_singleton Hname.
    unfold update_names in Hname.
    apply elem_of_cons in Hname as [-> | Hname]; [by left |].
    apply elem_of_cons in Hname as [-> | Hname];
      [right; by exists 4%positive, [VRef 6], [] |].
    apply list_elem_of_singleton in Hname as ->.
    right. by exists 5%positive, [VRef 9], [].
  - intros k e ->%list_elem_of_singleton He.
    change (e ∈ @nil value) in He. by apply elem_of_nil in He.
  - apply (bool_decide_unpack _). by vm_compute.
Qed.

Lemma update_dispatches_nested_requests_witness :
  w_issued (snd (update (E := Mem.env) Mem.posts (Cases.args_both 1 2) Mem.ctx []
                   (Mem.world MoreCases.retitle_with_requests Cases.one_post))) =
  [(Update "app_post" (SObj [("title", VStr "b")]) (SObj [("id", VNum 1)]), Awaited);
   (Update "app_comment" (SObj [("content", VStr "w")]) (SObj [("id", VNum 1)]),
    Detached);
   (Delete "app_comment" (SObj [("id", VNum 3)]), Detached);
   (SelectNest (get_query Mem.env Mem.posts (VNum 1) []), Awaited)].
Proof.
  exact (proj1 (update_dispatches_nested_requests Mem.env Mem.posts
                  (Cases.args_both 1 2) Mem.ctx [] (λ _, Mem.comments)
                  (Mem.world MoreCases.retitle_with_requests Cases.one_post)
                  1%positive [("title", VStr "b"); ("comments", VRef 3)]
                  (VNum 1) 1%Z _
                  eq_refl retitle_with_requests_tree eq_refl posts_keys_distinct
                  comments_registered eq_refl eq_refl)).
Defined.
